(** * ytdl_cli: selection parser, format selector, progress scanner, config store

    A shallow embedding of the pure cores of [ytdl_cli/utils.py],
    [ytdl_cli/downloader.py] and [ytdl_cli/state.py], and the properties
    the specification states about them.

    Conventions.
    - A Python [str] is a sequence of code points.  The embedding covers the
      code points below 256, one [ascii] each, with Python's classification
      of them ([str.isspace], [str.lower], [str.upper], decimal digits).
    - A Python [int] is a [Z].
    - An exception is a value of [exn]; a computation that may raise returns
      a [result].
    - A Python [set] of integers is a [gset Z]; [sorted] is a merge sort. *)

From Stdlib Require Import ZArith List Ascii String QArith Lia DecimalString.
From Stdlib Require DecimalPos.
From stdpp Require Import base gmap sets sorting list list_numbers strings.

Open Scope Z_scope.

(** ** Python strings *)

Module Py.

Definition str := list ascii.

Definition chars (s : string) : str := list_ascii_of_string s.

Definition code (c : ascii) : N := N_of_ascii c.

(** [c.isspace()] for a single code point below 256. *)
Definition is_space (c : ascii) : bool :=
  let n := code c in
  ((9 <=? n) && (n <=? 13) || (28 <=? n) && (n <=? 32)
   || (n =? 133) || (n =? 160))%N.

(** [c.lower()]: the ASCII capitals and the Latin-1 capitals, the
    multiplication sign (215) apart. *)
Definition lower_char (c : ascii) : ascii :=
  let n := code c in
  if ((65 <=? n) && (n <=? 90)
      || (192 <=? n) && (n <=? 222) && negb (n =? 215))%N
  then ascii_of_N (n + 32) else c.

Definition lower (s : str) : str := map lower_char s.

(** [c.upper()].  The sharp s (223) becomes two letters; the micro sign (181)
    and the y with diaeresis (255) have their capitals above 255: they are
    kept as they are, which no test for an ASCII word can tell apart. *)
Definition upper_char (c : ascii) : str :=
  let n := code c in
  if ((97 <=? n) && (n <=? 122)
      || (224 <=? n) && (n <=? 254) && negb (n =? 247))%N
  then [ascii_of_N (n - 32)]
  else if (n =? 223)%N then chars "SS" else [c].

Definition upper (s : str) : str := flat_map upper_char s.

(** The line feed, [\n]. *)
Definition nl : ascii := "010"%char.

(** [s.lstrip()], [s.rstrip()], [s.strip()] *)
Fixpoint lstrip (s : str) : str :=
  match s with
  | [] => []
  | c :: s' => if is_space c then lstrip s' else s
  end.

Fixpoint rstrip (s : str) : str :=
  match s with
  | [] => []
  | c :: s' =>
      match rstrip s' with
      | [] => if is_space c then [] else [c]
      | r => c :: r
      end
  end.

Definition strip (s : str) : str := rstrip (lstrip s).

(** [s.split(sep)] for a one-character separator: never the empty list. *)
Fixpoint split_char (sep : ascii) (s : str) : list str :=
  match s with
  | [] => [[]]
  | c :: s' =>
      if Ascii.eqb c sep then [] :: split_char sep s'
      else match split_char sep s' with
           | p :: ps => (c :: p) :: ps
           | [] => [[c]]
           end
  end.

(** [s.startswith(p)] *)
Fixpoint startswith (p s : str) : bool :=
  match p, s with
  | [], _ => true
  | _ :: _, [] => false
  | a :: p', b :: s' => Ascii.eqb a b && startswith p' s'
  end.

(** [sub in s] *)
Fixpoint contains (sub s : str) : bool :=
  match s with
  | [] => startswith sub []
  | _ :: s' => startswith sub s || contains sub s'
  end.

(** [s.split(sep)] for a non-empty separator [sep]: occurrences are taken
    from the left and do not overlap; [skip] counts the characters of the
    occurrence just found that are still to be passed over. *)
Fixpoint split_str_from (sep : str) (skip : nat) (s : str) : list str :=
  match s with
  | [] => [[]]
  | c :: s' =>
      match skip with
      | S k => split_str_from sep k s'
      | O =>
          if startswith sep s
          then [] :: split_str_from sep (length sep - 1) s'
          else match split_str_from sep 0 s' with
               | p :: ps => (c :: p) :: ps
               | [] => [[c]]
               end
      end
  end.

Definition split_str (sep s : str) : list str := split_str_from sep 0 s.

(** [s.split()]: the maximal runs of characters that are not white space. *)
Fixpoint split_ws (s : str) : list str :=
  match s with
  | [] => []
  | c :: s' =>
      if is_space c then split_ws s'
      else match s' with
           | [] => [[c]]
           | d :: _ =>
               if is_space d then [c] :: split_ws s'
               else match split_ws s' with
                    | w :: ws => (c :: w) :: ws
                    | [] => [[c]]
                    end
           end
  end.

(** [s.replace(c, '')] for a one-character [c]. *)
Definition remove_char (c : ascii) (s : str) : str :=
  filter (fun x => x ≠ c) (s : list ascii).

(** [str(n)] for an [int]. *)
Definition str_of_int (n : Z) : str :=
  chars (NilZero.string_of_int (Z.to_int n)).

(** ** Exceptions *)

(** The exceptions the embedded code meets.  [ValueError msg] is
    [raise ValueError(msg)], [ValueErrorFrom msg e] is
    [raise ValueError(msg) from e], whose [__cause__] is [e].  The two
    exceptions the interpreter raises itself on a literal or an unpacking
    are kept apart from them: they are [ValueError]s for an
    [except ValueError] clause too, and so is [UnicodeDecodeError].  The
    last three come from outside the repository: from the decoding of a
    file or of a pipe, from the operating system, and from rich. *)
Inductive exn : Type :=
  | ValueError (message : str)
  | ValueErrorFrom (message : str) (cause : exn)
  | InvalidLiteral (literal : str)  (* int(): invalid literal ... base 10 *)
  | InvalidFloat (literal : str)    (* float(): could not convert ... *)
  | UnpackError (got : nat)         (* start, end = ...: wrong count *)
  | IndexError                      (* list index out of range *)
  | AttributeError                  (* no such attribute *)
  | TypeError                       (* operation not supported by the type *)
  | RuntimeError (message : str)
  | UnicodeDecodeError (message : str)  (* bytes that are not UTF-8 *)
  | FileNotFoundError               (* no such file, no such program *)
  | MarkupError (message : str).    (* rich: a closing tag closes nothing *)

Inductive result (A : Type) : Type :=
  | Ok (a : A)
  | Raise (e : exn).
Arguments Ok {A} a.
Arguments Raise {A} e.

#[global] Instance result_bind : MBind result := fun A B k r =>
  match r with
  | Ok a => k a
  | Raise e => Raise e
  end.

(** [try: r  except ValueError as e: raise h(e) from e].  The exceptions
    raised inside the two [try] blocks of the parser are all value errors. *)
Definition reraise {A} (r : result A) (h : exn -> exn) : result A :=
  match r with
  | Ok a => Ok a
  | Raise e => Raise (h e)
  end.

(** ** [int(s)] on a string, base 10 *)

Definition is_digit (c : ascii) : bool :=
  let n := code c in ((48 <=? n) && (n <=? 57))%N.

Definition digit_val (c : ascii) : Z := Z.of_N (code c) - 48.

(** The digits after a first one: a single underscore may stand between two
    digits. *)
Fixpoint int_digits (acc : Z) (s : str) : option Z :=
  match s with
  | [] => Some acc
  | c :: s' =>
      if is_digit c then int_digits (10 * acc + digit_val c) s'
      else if Ascii.eqb c "_" then
        match s' with
        | d :: s'' =>
            if is_digit d then int_digits (10 * acc + digit_val d) s''
            else None
        | [] => None
        end
      else None
  end.

Definition int_unsigned (s : str) : option Z :=
  match s with
  | c :: s' => if is_digit c then int_digits (digit_val c) s' else None
  | [] => None
  end.

(** The white space [int] drops around a literal: the six characters of
    C's [isspace] and the white space above 127, which [int] reads as
    spaces.  The separators 28 to 31 are white space for [str.strip] and
    none for [int]. *)
Definition is_space_int (c : ascii) : bool :=
  let n := code c in
  ((9 <=? n) && (n <=? 13) || (n =? 32) || (n =? 133) || (n =? 160))%N.

Fixpoint lstrip_int (s : str) : str :=
  match s with
  | [] => []
  | c :: s' => if is_space_int c then lstrip_int s' else s
  end.

Fixpoint rstrip_int (s : str) : str :=
  match s with
  | [] => []
  | c :: s' =>
      match rstrip_int s' with
      | [] => if is_space_int c then [] else [c]
      | r => c :: r
      end
  end.

(** White space around the literal is dropped, one sign is allowed.  The
    interpreter's limit on the number of digits of a literal is a setting of
    the process and is not part of the embedding. *)
Definition int (s : str) : result Z :=
  let t := rstrip_int (lstrip_int s) in
  let v :=
    match t with
    | c :: r =>
        if Ascii.eqb c "+" then int_unsigned r
        else if Ascii.eqb c "-" then option_map Z.opp (int_unsigned r)
        else int_unsigned t
    | [] => None
    end in
  match v with
  | Some n => Ok n
  | None => Raise (InvalidLiteral s)
  end.

(** [list(range(a, b))] *)
Definition range (a b : Z) : list Z := seqZ a (b - a).

End Py.

Import Py.

(** ** utils.py *)

Module Utils.

(** The body of the [for part in parts] loop of [parse_video_selection],
    for a term with a hyphen. *)
Definition range_term (part : str) (total_videos : Z) (indices : gset Z)
  : result (gset Z) :=
  reraise
    (match split_char "-" part with
     | [start; end_] =>
         start_idx ← int (strip start);
         end_idx ← int (strip end_);
         if (start_idx <? 1) || (end_idx >? total_videos)
            || (start_idx >? end_idx)
         then Raise (ValueError (chars "Invalid range: " ++ part))
         else Ok (indices ∪ list_to_set (range start_idx (end_idx + 1)))
     | parts => Raise (UnpackError (length parts))
     end)
    (fun e => ValueErrorFrom (chars "Invalid range format: " ++ part) e).

(** The same for a term without a hyphen. *)
Definition single_term (part : str) (total_videos : Z) (indices : gset Z)
  : result (gset Z) :=
  reraise
    (idx ← int part;
     if (idx <? 1) || (idx >? total_videos)
     then Raise (ValueError (chars "Index out of range: " ++ str_of_int idx))
     else Ok (indices ∪ {[ idx ]}))
    (fun e => ValueErrorFrom (chars "Invalid number: " ++ part) e).

Definition term (total_videos : Z) (indices : gset Z) (part : str)
  : result (gset Z) :=
  let part := strip part in
  if contains (chars "-") part
  then range_term part total_videos indices
  else single_term part total_videos indices.

(** [for part in parts: ...], left to right, leaving at the first
    exception. *)
Fixpoint for_parts (total_videos : Z) (indices : gset Z) (parts : list str)
  : result (gset Z) :=
  match parts with
  | [] => Ok indices
  | part :: parts' =>
      indices' ← term total_videos indices part;
      for_parts total_videos indices' parts'
  end.

Definition parse_video_selection (selection : str) (total_videos : Z)
  : result (list Z) :=
  let selection := lower (strip selection) in
  if bool_decide (selection = chars "all")
  then Ok (range 1 (total_videos + 1))
  else
    indices ← for_parts total_videos ∅ (split_char "," selection);
    Ok (merge_sort Z.le (elements indices)).

(** [build_format_string]: [quality.replace('p', '').split()[0].strip()],
    then the five alternatives of the selector, joined by [/]. *)
Definition build_format_string (quality : str) : result str :=
  match split_ws (remove_char "p" quality) with
  | [] => Raise IndexError
  | w :: _ =>
      let height := strip w in
      Ok (chars "bestvideo[height<=" ++ height
            ++ chars "][ext=mp4]+bestaudio[ext=m4a]/"
          ++ chars "bestvideo[height<=" ++ height ++ chars "]+bestaudio/"
          ++ chars "best[height<=" ++ height ++ chars "][ext=mp4]/"
          ++ chars "best[height<=" ++ height ++ chars "]/"
          ++ chars "best")
  end.

End Utils.

Import Utils.

(** ** downloader.py: the scanning of yt-dlp's output *)

Module Downloader.

(** [l[-n:]] for [n > 0] *)
Definition last_n {A} (n : nat) (l : list A) : list A :=
  drop (length l - n)%nat l.

Section Scanner.

(** Python's floats, [float(s)] on a string ([None] where it raises its
    [ValueError]) and [pathlib]'s [Path(s).name], whose value depends on the
    platform, are taken as they come. *)
Variable F : Type.
Variable float : str -> option F.
Variable path_name : str -> str.

(** What [progress.update(task, completed=...)] is given: the [int]s 0 and
    100, or a [float]. *)
Inductive number : Type :=
  | Int (n : Z)
  | Float (f : F).

(** [float(line.split('%')[0].split()[-1])] *)
Definition percent_of (line : str) : result F :=
  match split_char "%" line with
  | [] => Raise IndexError
  | before :: _ =>
      match last (split_ws before) with
      | None => Raise IndexError
      | Some token =>
          match float token with
          | Some f => Ok f
          | None => Raise (InvalidFloat token)
          end
      end
  end.

(** *** [download_single_video]: the state of the loop over
    [process.stdout] is the list [all_output] and the task's [completed]. *)
Record single_scan : Type := {
  all_output : list str;
  single_completed : number
}.

Definition single_start : single_scan :=
  {| all_output := []; single_completed := Int 0 |}.

Definition single_step (st : single_scan) (line : str) : single_scan :=
  let out := all_output st ++ [line] in
  if contains (chars "[download]") line && contains (chars "%") line then
    match percent_of line with
    | Ok percent => {| all_output := out; single_completed := Float percent |}
    | Raise _ => {| all_output := out; single_completed := single_completed st |}
    end
  else {| all_output := out; single_completed := single_completed st |}.

Definition single_scan_lines (lines : list str) : single_scan :=
  fold_left single_step lines single_start.

(** *** [download_playlist]: the local [current_file] and the task's
    [description] and [completed]. *)
Record playlist_scan : Type := {
  current_file : str;
  description : str;
  completed : number
}.

Definition playlist_start : playlist_scan :=
  {| current_file := chars "Downloading...";
     description := chars "Downloading...";
     completed := Int 0 |}.

Definition playlist_step (st : playlist_scan) (line : str)
  : result playlist_scan :=
  if contains (chars "[download] Destination:") line then
    match split_str (chars "Destination:") line !! 1%nat with
    | None => Raise IndexError
    | Some piece =>
        let filename := strip piece in
        let name := path_name filename in
        let name :=
          if (40 <? length name)%nat then take 37 name ++ chars "..."
          else name in
        Ok {| current_file := name; description := name;
              completed := Int 0 |}
    end
  else if contains (chars "[download]") line && contains (chars "%") line then
    match percent_of line with
    | Ok percent =>
        Ok {| current_file := current_file st;
              description := description st;
              completed := Float percent |}
    | Raise _ => Ok st
    end
  else if contains (chars "has already been downloaded") line
          || contains (chars "100%") line then
    Ok {| current_file := current_file st;
          description := description st;
          completed := Int 100 |}
  else Ok st.

Fixpoint playlist_scan_lines (st : playlist_scan) (lines : list str)
  : result playlist_scan :=
  match lines with
  | [] => Ok st
  | line :: lines' =>
      st' ← playlist_step st line;
      playlist_scan_lines st' lines'
  end.

End Scanner.

Arguments Int {F} n.
Arguments Float {F} f.
Arguments all_output {F} s.
Arguments single_completed {F} s.
Arguments current_file {F} p.
Arguments description {F} p.
Arguments completed {F} p.

(** *** The pipe of [download_playlist] *)

(** What iterating [process.stdout] gives in [download_playlist].  Its pipe
    is opened with [encoding='utf-8'] and no [errors='replace']: the
    iteration gives the lines decoded so far and, when bytes that are not
    UTF-8 come, ends with a [UnicodeDecodeError], whose message is [broken].
    The pipe of [download_single_video] has [errors='replace'] and gives
    lines only. *)
Record pipe : Type := {
  decoded : list str;
  broken : option str
}.

(** [for line in process.stdout: ...] in [download_playlist] *)
Definition playlist_run {F} (float : str -> option F)
  (path_name : str -> str) (stdout : pipe) : result (playlist_scan F) :=
  st ← playlist_scan_lines F float path_name (playlist_start F)
         (decoded stdout);
  match broken stdout with
  | Some message => Raise (UnicodeDecodeError message)
  | None => Ok st
  end.

(** *** After the process has ended *)

(** The lines [download_single_video] chooses when the exit status is not
    zero: [error_lines], before the last five of them are printed. *)
Definition error_lines (all_output : list str) : list str :=
  match filter (fun l => contains (chars "ERROR") (upper l) = true
                         ∨ contains (chars "error") l = true) all_output with
  | [] => last_n 10 all_output
  | matching => matching
  end.

(** [str(e)] for the exceptions a download call prints: an exception made
    from a message gives the message, an [IndexError] of a list its fixed
    text.  No other exception reaches a handler that prints it
    ([download_single_video_end_raises], [download_playlist_try_raises]). *)
Definition str_of_exn (e : exn) : str :=
  match e with
  | ValueError message | ValueErrorFrom message _ | RuntimeError message
  | UnicodeDecodeError message | MarkupError message => message
  | IndexError => chars "list index out of range"
  | InvalidLiteral _ | InvalidFloat _ | UnpackError _ | AttributeError
  | TypeError | FileNotFoundError => []
  end.

(** What a download call comes to, from the start of its process on: the
    value it returns or the exception that leaves it, and what it has given
    to [console.print], one text a call.  What rich draws of the progress
    bar is not part of the embedding. *)
Record outcome : Type := {
  returned : result bool;
  console : list str
}.

(** A statement that prints and may raise: from what has been printed, what
    has been printed after it and its value or exception. *)
Definition io (A : Type) : Type := list str -> list str * result A.

#[global] Instance io_ret : MRet io := fun A a printed => (printed, Ok a).

#[global] Instance io_bind : MBind io := fun A B k m printed =>
  match m printed with
  | (printed', Ok a) => k a printed'
  | (printed', Raise e) => (printed', Raise e)
  end.

Definition raise {A} (e : exn) : io A := fun printed => (printed, Raise e).

(** [try: body  except Exception as e: handler(e)] *)
Definition try_except {A} (body : io A) (handler : exn -> io A) : io A :=
  fun printed =>
    match body printed with
    | (printed', Ok a) => (printed', Ok a)
    | (printed', Raise e) => handler e printed'
    end.

(** [for x in xs: body(x)] *)
Fixpoint for_each {A} (body : A -> io unit) (xs : list A) : io unit :=
  match xs with
  | [] => mret tt
  | x :: xs' => body x;; for_each body xs'
  end.

Definition run (call : io bool) : outcome :=
  let '(printed, value) := call [] in
  {| returned := value; console := printed |}.

Section Console.

(** rich reads the text given to [console.print] as markup, and raises a
    [MarkupError] on a closing tag that closes nothing, such as [[/x]] in a
    line of yt-dlp: [markup_error text] is the message of that error, [None]
    when rich prints [text]. *)
Variable markup_error : str -> option str.

(** [console.print(text)] *)
Definition print (text : str) : io unit := fun printed =>
  match markup_error text with
  | None => (printed ++ [text], Ok tt)
  | Some message => (printed, Raise (MarkupError message))
  end.

(** [download_single_video] after its loop, inside the [try]: the
    [if returncode != 0] and the [return True]. *)
Definition download_single_video_end (all_output : list str) (returncode : Z)
  : io bool :=
  if returncode =? 0 then mret true
  else
    print (nl :: chars "[bold red]yt-dlp error:[/bold red]");;
    for_each
      (fun line => print (chars "[red]" ++ strip line ++ chars "[/red]"))
      (last_n 5 (error_lines all_output));;
    raise (RuntimeError (chars "Download failed with code "
                         ++ str_of_int returncode)).

(** [download_playlist] after its loop, inside the [try]: it has kept no
    line of the output and has the exit status only. *)
Definition download_playlist_end (returncode : Z) : io bool :=
  if returncode =? 0 then mret true
  else
    print (chars "[red]Download failed with code "
           ++ str_of_int returncode ++ chars "[/red]");;
    mret false.

(** The two calls, from what the process writes and its exit status, each
    with its [except Exception], which prints the exception and returns
    [False].  In [download_playlist] the exception may be that of the pipe;
    the exit status is not read then. *)
Definition download_single_video {F} (float : str -> option F)
  (lines : list str) (returncode : Z) : outcome :=
  run
    (try_except
       (download_single_video_end
          (all_output (single_scan_lines F float lines)) returncode)
       (fun e =>
          print (chars "[bold red]Error: " ++ str_of_exn e
                 ++ chars "[/bold red]");;
          mret false)).

Definition download_playlist {F} (float : str -> option F)
  (path_name : str -> str) (stdout : pipe) (returncode : Z) : outcome :=
  run
    (try_except
       (match playlist_run float path_name stdout with
        | Ok _ => download_playlist_end returncode
        | Raise e => raise e
        end)
       (fun e =>
          print (chars "[red]Download error: " ++ str_of_exn e
                 ++ chars "[/red]");;
          mret false)).

End Console.

(** *** Instances for running the scanners *)

(** [PurePosixPath(p).name]: the last component of [p]; empty components
    and the components [.] do not count. *)
Definition posix_name (p : str) : str :=
  default []
    (last (filter (fun part => part ≠ [] ∧ part ≠ chars ".")
             (split_char "/" p))).

(** An instance of [float] for the runs below, which feed it plain decimal
    literals only, [digits] or [digits.digits]: their value as a rational,
    of which [float] returns the nearest double.  It is [None] on every
    other string, also on those [float] reads (a sign, an exponent,
    [nan]): the theorems are about any [float]. *)
Definition digits_value (s : str) : Z :=
  fold_left (fun acc c => 10 * acc + digit_val c) s 0.

Definition float_decimal (s : str) : option Q :=
  match split_char "." s with
  | [whole] =>
      if forallb is_digit whole && negb (bool_decide (whole = []))
      then Some (inject_Z (digits_value whole)) else None
  | [whole; frac] =>
      if forallb is_digit whole && forallb is_digit frac
         && negb (bool_decide (whole = []))
      then Some (Qmake (digits_value (whole ++ frac))
                   (Z.to_pos (10 ^ Z.of_nat (length frac))))
      else None
  | _ => None
  end.

(** rich on the texts of the runs below, whose tags are closed in turn:
    it prints them. *)
Definition markup_closed (text : str) : option str := None.

(** A pipe that gives its lines and ends. *)
Definition whole (lines : list str) : pipe :=
  {| decoded := lines; broken := None |}.

(** The scanners with these instances. *)
Definition step : playlist_scan Q -> str -> result (playlist_scan Q) :=
  playlist_step Q float_decimal posix_name.

Definition start : playlist_scan Q := playlist_start Q.

Definition step1 : single_scan Q -> str -> single_scan Q :=
  single_step Q float_decimal.

Definition start1 : single_scan Q := single_start Q.

End Downloader.

Import Downloader.

(** ** state.py: the configuration store *)

Module State.

(** The values [json.load] returns and [json.dump] writes. *)
#[warnings="-register-all"] Inductive json : Type :=
  | JNull
  | JBool (b : bool)
  | JInt (n : Z)
  | JFloat (q : Q)
  | JString (s : str)
  | JArray (items : list json)
  | JObject (fields : gmap str json).

(** The file [config.json] as [_read_config] meets it: not there
    ([FileNotFoundError]); bytes that are not UTF-8, on which the reading of
    the file opened with [encoding='utf-8'] raises a [UnicodeDecodeError]
    with the message [message]; a text [json.load] rejects
    ([JSONDecodeError]); or a text it decodes to a value.  [json.dump]
    writes a text that [json.load] decodes to the value dumped.  The file
    can be opened when it is there: the other errors of the operating
    system are not part of the embedding. *)
Inductive document : Type :=
  | Missing
  | Undecodable (message : str)
  | Malformed (text : str)
  | Wellformed (value : json).

Inductive Path : Type := MkPath (text : str).

(** [str(p)] for a path. *)
Definition Path_str (p : Path) : str := let 'MkPath s := p in s.

(** A [Config] object and the file it stands for. *)
Record Config : Type := {
  config_file : document;
  base_download_dir : Path
}.

(** The handler is [except (json.JSONDecodeError, FileNotFoundError)]: a
    [UnicodeDecodeError] is neither and leaves the call. *)
Definition _read_config (self : Config) : result json :=
  match config_file self with
  | Wellformed value => Ok value
  | Missing | Malformed _ => Ok (JObject ∅)
  | Undecodable message => Raise (UnicodeDecodeError message)
  end.

Definition _write_config (self : Config) (data : json) : Config :=
  {| config_file := Wellformed data;
     base_download_dir := base_download_dir self |}.

(** [Config()] on a file system where [config.json] is [file]: a missing
    file is written with the defaults, any other file is left as it is. *)
Definition _ensure_config_exists (self : Config) : Config :=
  match config_file self with
  | Missing =>
      _write_config self
        (JObject
           (<[chars "download_dir" :=
                JString (Path_str (base_download_dir self))]>
              (<[chars "last_quality" := JString (chars "720")]> ∅)))
  | _ => self
  end.

Definition Config_init (file : document) (home_downloads : Path) : Config :=
  _ensure_config_exists
    {| config_file := file; base_download_dir := home_downloads |}.

(** [config.get(key, default)]: only a [dict] has the method. *)
Definition dict_get (config : json) (key : str) (default_ : json)
  : result json :=
  match config with
  | JObject fields => Ok (default default_ (fields !! key))
  | _ => Raise AttributeError
  end.

(** [config[key] = value]: a [dict] takes it; the other values
    [json.load] may return do not support item assignment by a string. *)
Definition dict_set (config : json) (key : str) (value : json)
  : result json :=
  match config with
  | JObject fields => Ok (JObject (<[key := value]> fields))
  | _ => Raise TypeError
  end.

Definition get_last_quality (self : Config) : result json :=
  config ← _read_config self;
  dict_get config (chars "last_quality") (JString (chars "720")).

Definition set_last_quality (self : Config) (quality : str) : result Config :=
  config ← _read_config self;
  config ← dict_set config (chars "last_quality") (JString quality);
  Ok (_write_config self config).

(** [Path(dir_path)] takes a string. *)
Definition get_download_dir (self : Config) : result Path :=
  config ← _read_config self;
  dir_path ← dict_get config (chars "download_dir")
               (JString (Path_str (base_download_dir self)));
  match dir_path with
  | JString s => Ok (MkPath s)
  | _ => Raise TypeError
  end.

Definition set_download_dir (self : Config) (directory : str)
  : result Config :=
  config ← _read_config self;
  config ← dict_set config (chars "download_dir") (JString directory);
  Ok (_write_config self config).

End State.

Import State.

(** ** Vocabulary of the statements *)

(** White space only. *)
Definition blank (s : str) : Prop := Forall (fun c => is_space c = true) s.

(** Empty, or white space first. *)
Definition starts_blank (s : str) : Prop :=
  match s with
  | [] => True
  | c :: _ => is_space c = true
  end.

(** A numeral: decimal digits, one at least. *)
Definition numeral (h : str) : Prop :=
  h <> [] /\ Forall (fun c => is_digit c = true) h.

(** The number a [completed] stands for, the floats being rationals. *)
Definition number_value (n : number Q) : Q :=
  match n with
  | Int z => inject_Z z
  | Float f => f
  end.


(** What [_read_config] returns for the document is a [dict]. *)
Definition read_as_dict (d : document) : Prop :=
  match d with
  | Missing | Malformed _ | Wellformed (JObject _) => True
  | Undecodable _ | Wellformed _ => False
  end.

(** Every position of a set lies in [1, total_videos]. *)
Definition in_bounds (total_videos : Z) (S : gset Z) : Prop :=
  forall i, i ∈ S -> 1 <= i <= total_videos.

(** The line holds the word [error], in the two ways
    [download_single_video] looks for it. *)
Definition mentions_error (l : str) : Prop :=
  contains (chars "ERROR") (upper l) = true
  \/ contains (chars "error") l = true.

(** The exceptions an [except ValueError] clause catches. *)
Definition value_error (e : exn) : Prop :=
  match e with
  | ValueError _ | ValueErrorFrom _ _ | InvalidLiteral _ | InvalidFloat _
  | UnpackError _ | UnicodeDecodeError _ => True
  | IndexError | AttributeError | TypeError | RuntimeError _
  | FileNotFoundError | MarkupError _ => False
  end.

(** What a line of yt-dlp gives the progress bar, if anything: in
    [download_single_video] the percentage read from it, in
    [download_playlist] 0 for a destination line, else the percentage read,
    else 100 for a line of completion. *)
Definition single_reading {F} (float : str -> option F) (line : str)
  : option (number F) :=
  if contains (chars "[download]") line && contains (chars "%") line then
    match percent_of F float line with
    | Ok percent => Some (Float percent)
    | Raise _ => None
    end
  else None.

Definition playlist_reading {F} (float : str -> option F) (line : str)
  : option (number F) :=
  if contains (chars "[download] Destination:") line then Some (Int 0)
  else if contains (chars "[download]") line && contains (chars "%") line
  then single_reading float line
  else if contains (chars "has already been downloaded") line
          || contains (chars "100%") line
  then Some (Int 100)
  else None.

(** The digits [NilEmpty.string_of_uint] writes. *)
Definition digits_of (d : Decimal.uint) : str :=
  chars (NilEmpty.string_of_uint d).

(** [sep.join(pieces)] *)
Fixpoint join (sep : ascii) (pieces : list str) : str :=
  match pieces with
  | [] => []
  | [x] => x
  | x :: rest => x ++ sep :: join sep rest
  end.

(** The alternatives of a format selector for the height [h], as yt-dlp
    reads them: it splits the selector at [/]. *)
Definition format_tiers (h : str) : list str :=
  [ chars "bestvideo[height<=" ++ h ++ chars "][ext=mp4]+bestaudio[ext=m4a]";
    chars "bestvideo[height<=" ++ h ++ chars "]+bestaudio";
    chars "best[height<=" ++ h ++ chars "][ext=mp4]";
    chars "best[height<=" ++ h ++ chars "]";
    chars "best" ].

(** ** utils.py: file names *)

Module Filenames.

(** [c in cs] for a character *)
Definition in_chars (cs : str) (c : ascii) : bool := existsb (Ascii.eqb c) cs.

(** [s.strip(cs)]: the characters of [cs] are taken off both ends. *)
Fixpoint lstrip_chars (cs s : str) : str :=
  match s with
  | [] => []
  | c :: s' => if in_chars cs c then lstrip_chars cs s' else s
  end.

Fixpoint rstrip_chars (cs s : str) : str :=
  match s with
  | [] => []
  | c :: s' =>
      match rstrip_chars cs s' with
      | [] => if in_chars cs c then [] else [c]
      | r => c :: r
      end
  end.

Definition strip_chars (cs s : str) : str :=
  rstrip_chars cs (lstrip_chars cs s).

(** The characters of the class of the regular expression: the angle
    brackets, the colon, the double quote (34), the two slashes, the bar,
    the question mark and the star. *)
Definition invalid_chars : str :=
  chars "<>:" ++ ["034"%char] ++ chars "/\|?*".

(** [re.sub(invalid_chars, '_', filename)] *)
Definition replace_invalid (filename : str) : str :=
  map (fun c => if in_chars invalid_chars c then "_"%char else c) filename.

Definition sanitize_filename (filename : str) : str :=
  let sanitized := replace_invalid filename in
  let sanitized := strip_chars (chars ". ") sanitized in
  if (200 <? length sanitized)%nat then take 200 sanitized else sanitized.

End Filenames.

Import Filenames.

(** ** The quality labels: utils.py, cli.py, prompts.py *)

Module Quality.

Definition get_quality_choices : list str :=
  map chars
    [ "2160p (4K)"; "1440p (2K)"; "1080p (FHD)"; "720p (HD)"; "480p (SD)";
      "360p"; "240p"; "144p" ]%string.

(** [next((q for q in quality_choices if q.startswith(n)),
    quality_choices[3])], in [download_workflow] and in
    [prompt_settings_menu]: the label shown as the current quality for the
    number [n] the store holds. *)
Definition current_quality (last_quality_num : str) : str :=
  let quality_choices := get_quality_choices in
  default (nth 3 quality_choices [])
    (find (startswith last_quality_num) quality_choices).

(** [prompt_quality]: [answer] is what the menu gives, [None] when it is
    left. *)
Definition prompt_quality (default_quality : str) (answer : option str)
  : str :=
  let choices := get_quality_choices in
  let default_quality :=
    if bool_decide (default_quality ∈ choices) then default_quality
    else nth 3 choices [] in
  match answer with
  | Some (c :: a) => c :: a
  | Some [] | None => default_quality
  end.

(** What [download_workflow] stores: [quality.replace('p', '')]. *)
Definition workflow_quality_num (quality : str) : str :=
  remove_char "p" quality.

(** What [prompt_settings_menu] stores:
    [new_quality.replace('p', '').split()[0].strip()]. *)
Definition settings_quality_num (new_quality : str) : result str :=
  match split_ws (remove_char "p" new_quality) with
  | [] => Raise IndexError
  | w :: _ => Ok (strip w)
  end.

End Quality.

Import Quality.

(** ** state.py: the other accessors *)

Module Settings.

(** Python's truth value of what [json.load] returns *)
Definition truthy (v : json) : bool :=
  match v with
  | JNull => false
  | JBool b => b
  | JInt n => negb (n =? 0)
  | JFloat q => negb (Qeq_bool q 0)
  | JString s => match s with [] => false | _ => true end
  | JArray items => match items with [] => false | _ => true end
  | JObject fields => negb (size fields =? 0)%nat
  end.

(** [v == s] for a string [s] *)
Definition eq_str (v : json) (s : str) : bool :=
  match v with
  | JString t => bool_decide (t = s)
  | _ => false
  end.

(** [len(v)] *)
Definition len (v : json) : result Z :=
  match v with
  | JString s => Ok (Z.of_nat (length s))
  | JArray items => Ok (Z.of_nat (length items))
  | JObject fields => Ok (Z.of_nat (size fields))
  | _ => Raise TypeError
  end.

Definition set_last_used_dir (self : Config) (directory : str)
  : result Config :=
  config ← _read_config self;
  config ← dict_set config (chars "last_used_dir") (JString directory);
  Ok (_write_config self config).

Section LastUsed.

(** [str(Path(s))]: the text [pathlib] keeps for [s], which depends on the
    platform. *)
Variable normal : str -> str.

(** [get_last_used_dir]: [JNull] is [None]. *)
Definition get_last_used_dir (self : Config) : result json :=
  config ← _read_config self;
  last_used ← dict_get config (chars "last_used_dir") JNull;
  dir ← get_download_dir self;
  let default_ := normal (Path_str dir) in
  if truthy last_used && negb (eq_str last_used default_)
  then Ok last_used
  else Ok JNull.

End LastUsed.

End Settings.

Import Settings.

(** ** downloader.py: the metadata of a video or a playlist *)

Module Metadata.

Record VideoInfo : Type := {
  id_ : json;
  title : json;
  duration : json;
  duration_string : json;
  url : json;
  is_playlist : bool;
  playlist_title : json;
  playlist_count : json;
  entries : json
}.

(** [VideoInfo(data)]: [data.get] needs a [dict]. *)
Definition VideoInfo_init (data : json) : result VideoInfo :=
  match data with
  | JObject d =>
      let get key default_ := default default_ (d !! chars key) in
      Ok {| id_ := get "id"%string (JString []);
            title := get "title"%string (JString (chars "Unknown"));
            duration := get "duration"%string (JInt 0);
            duration_string :=
              get "duration_string"%string (JString (chars "N/A"));
            url := get "webpage_url"%string (get "url"%string (JString []));
            is_playlist :=
              match d !! chars "_type" with
              | Some t => eq_str t (chars "playlist")
              | None => false
              end;
            playlist_title :=
              get "playlist_title"%string (get "title"%string (JString []));
            playlist_count := get "playlist_count"%string (JInt 0);
            entries := get "entries"%string (JArray []) |}
  | _ => Raise AttributeError
  end.

Section Fetch.

(** [json.loads(line)]: the value, or the text of its [JSONDecodeError];
    and the text of a [CalledProcessError] for an exit status. *)
Variable loads : str -> str + json.
Variable called_process_error : Z -> str.

(** What [subprocess.run(cmd, capture_output=True, text=True, check=True,
    encoding='utf-8')] comes to: the process has run and leaves its exit
    status and its two streams, decoded; or the call raises an exception of
    its own, such as [FileNotFoundError] when there is no [yt-dlp] to start
    and [UnicodeDecodeError] when what it wrote is not UTF-8.  The
    [CalledProcessError] of [check=True] is not one of these: it comes from
    the exit status. *)
Inductive run_result : Type :=
  | Exited (returncode : Z) (stdout stderr : str)
  | Failed (e : exn).

(** [json.loads(line)] inside the [try] of [fetch_metadata], whose handler
    turns the [JSONDecodeError] into a [RuntimeError]. *)
Definition decode (line : str) : result json :=
  match loads line with
  | inr value => Ok value
  | inl e => Raise (RuntimeError (chars "Failed to parse metadata: " ++ e))
  end.

(** [[json.loads(line) for line in lines if line.strip()]] *)
Fixpoint decode_entries (lines : list str) : result (list json) :=
  match lines with
  | [] => Ok []
  | line :: lines' =>
      match strip line with
      | [] => decode_entries lines'
      | _ =>
          entry ← decode line;
          entries ← decode_entries lines';
          Ok (entry :: entries)
      end
  end.

(** [fetch_metadata], from what [subprocess.run] comes to.  Its two
    handlers are for [CalledProcessError] and [JSONDecodeError]: an
    exception of [subprocess.run] itself leaves the call as it is. *)
Definition fetch_metadata (process : run_result) : result VideoInfo :=
  match process with
  | Failed e => Raise e
  | Exited returncode stdout stderr =>
      if negb (returncode =? 0) then
        let error_msg :=
          match stderr with
          | [] => called_process_error returncode
          | _ => stderr
          end in
        Raise (RuntimeError (chars "Failed to fetch metadata: " ++ error_msg))
      else
        let lines := split_char nl (strip stdout) in
        match lines with
        | [] => Raise IndexError
        | first :: rest =>
            if (1 <? length lines)%nat then
              first_data ← decode first;
              type_ ← dict_get first_data (chars "_type") JNull;
              if eq_str type_ (chars "playlist") then
                entries ← decode_entries rest;
                first_data ← dict_set first_data (chars "entries")
                               (JArray entries);
                VideoInfo_init first_data
              else
                entries ← decode_entries lines;
                let name :=
                  chars "Playlist ("
                  ++ str_of_int (Z.of_nat (length entries))
                  ++ chars " videos)" in
                VideoInfo_init
                  (JObject
                     (<[chars "_type" := JString (chars "playlist")]>
                        (<[chars "title" := JString name]>
                           (<[chars "playlist_title" := JString name]>
                              (<[chars "playlist_count" :=
                                   JInt (Z.of_nat (length entries))]>
                                 (<[chars "entries" := JArray entries]> ∅))))))
            else
              data ← decode first;
              VideoInfo_init data
        end
  end.

End Fetch.

(** [json.loads] on the lines of one run of yt-dlp: [table] lists the
    lines that decode, with their values; any other line is rejected. *)
Definition loads_table (table : list (str * json)) (line : str)
  : str + json :=
  match find (fun entry => bool_decide (fst entry = line)) table with
  | Some entry => inr (snd entry)
  | None => inl (chars "Expecting value")
  end.

(** A line of yt-dlp, an object with the one key [id] and the value [abc]
    (34 is the double quote), and what [json.loads] makes of it. *)
Definition sample_line : str :=
  chars "{" ++ ["034"%char] ++ chars "id" ++ ["034"%char] ++ chars ": "
  ++ ["034"%char] ++ chars "abc" ++ ["034"%char] ++ chars "}".

Definition sample_video : json :=
  JObject (<[chars "id" := JString (chars "abc")]> ∅).

(** [Downloader.is_playlist], after [fetch_metadata] has returned [info]:
    the first component of the pair. *)
Definition Downloader_is_playlist (info : VideoInfo) : result bool :=
  if is_playlist info then Ok true
  else
    n ← len (entries info);
    Ok (0 <? n).

(** [','.join(map(str, video_indices))] in [download_playlist] *)
Definition playlist_items (video_indices : list Z) : str :=
  join "," (map str_of_int video_indices).

End Metadata.

Import Metadata.

(** ** prompts.py: the selection of the videos of a playlist *)

Module Prompts.

(** The loop of [prompt_video_selection]: [answers] are what the text
    prompt gives at each turn, [None] when it is left.  The value is [None]
    as long as the loop waits for another answer.  What is printed is not
    part of the embedding.  The handler is an [except ValueError]: what the
    parser raises is always one ([term_raises], [for_parts_raises]). *)
Fixpoint ask_selection (total_videos : Z) (answers : list (option str))
  : option (list Z) :=
  match answers with
  | [] => None
  | None :: _ | Some [] :: _ => Some []
  | Some selection :: answers' =>
      match parse_video_selection (strip selection) total_videos with
      | Ok indices => Some indices
      | Raise _ => ask_selection total_videos answers'
      end
  end.

Definition prompt_video_selection (total_videos : Z) (choice : option str)
  (answers : list (option str)) : option (list Z) :=
  match choice with
  | None | Some [] => Some (range 1 (total_videos + 1))
  | Some choice =>
      if contains (chars "All videos") choice
      then Some (range 1 (total_videos + 1))
      else ask_selection total_videos answers
  end.

End Prompts.

Import Prompts.

(** * Properties *)

(** ** Characters and strings *)

Section Characters.

Ltac by_cases_on c :=
  destruct c as [[] [] [] [] [] [] [] []]; reflexivity.

Lemma is_space_lower_char c : is_space (lower_char c) = is_space c.
Proof. by_cases_on c. Qed.

Lemma lower_char_comma c :
  Ascii.eqb (lower_char c) "," = Ascii.eqb c ",".
Proof. by_cases_on c. Qed.

Lemma is_space_not_comma c :
  is_space c = true -> Ascii.eqb c "," = false.
Proof. destruct c as [[] [] [] [] [] [] [] []]; (reflexivity || discriminate). Qed.

Lemma is_digit_not_space c : is_digit c = true -> is_space c = false.
Proof. destruct c as [[] [] [] [] [] [] [] []]; (reflexivity || discriminate). Qed.

Lemma is_digit_not_slash c : is_digit c = true -> Ascii.eqb c "/" = false.
Proof. destruct c as [[] [] [] [] [] [] [] []]; (reflexivity || discriminate). Qed.

Lemma is_digit_not_p c : is_digit c = true -> c <> "p"%char.
Proof. destruct c as [[] [] [] [] [] [] [] []]; (discriminate || (intros _; discriminate)). Qed.

End Characters.

Section Strip.

Lemma lstrip_blank_app ws s : blank ws -> lstrip (ws ++ s) = lstrip s.
Proof.
  induction 1 as [|c ws Hc _ IH]; simpl; [reflexivity|].
  rewrite Hc. exact IH.
Qed.

Lemma lstrip_blank s : blank s -> lstrip s = [].
Proof.
  intros H. rewrite <- (app_nil_r s). rewrite lstrip_blank_app by exact H.
  reflexivity.
Qed.

Lemma rstrip_blank s : blank s -> rstrip s = [].
Proof.
  induction 1 as [|c s Hc _ IH]; simpl; [reflexivity|].
  rewrite IH, Hc. reflexivity.
Qed.

Lemma rstrip_nil_blank s : rstrip s = [] -> blank s.
Proof.
  induction s as [|c s IH]; simpl; intros H; [constructor|].
  destruct (rstrip s) eqn:E; [|discriminate].
  destruct (is_space c) eqn:Hc; [|discriminate].
  constructor; [exact Hc | exact (IH eq_refl)].
Qed.

Lemma rstrip_app_blank s ws : blank ws -> rstrip (s ++ ws) = rstrip s.
Proof.
  intros H. induction s as [|c s IH]; simpl.
  - apply rstrip_blank, H.
  - rewrite IH. reflexivity.
Qed.

Lemma strip_blank s : blank s -> strip s = [].
Proof. intros H. unfold strip. rewrite lstrip_blank by exact H. reflexivity. Qed.

(** What [rstrip] does to [c :: s] depends on [rstrip s] only. *)
Lemma rstrip_cons_congr c s t :
  rstrip s = rstrip t -> rstrip (c :: s) = rstrip (c :: t).
Proof. simpl. intros ->. reflexivity. Qed.

Lemma lstrip_rstrip s : lstrip (rstrip s) = rstrip (lstrip s).
Proof.
  induction s as [|c s IH]; simpl; [reflexivity|].
  destruct (is_space c) eqn:Hc.
  - rewrite <- IH. destruct (rstrip s) eqn:E; simpl; [reflexivity|].
    rewrite Hc. reflexivity.
  - simpl. rewrite ?Hc. destruct (rstrip s) eqn:E; simpl; rewrite ?Hc; reflexivity.
Qed.

Lemma lstrip_idemp s : lstrip (lstrip s) = lstrip s.
Proof.
  induction s as [|c s IH]; simpl; [reflexivity|].
  destruct (is_space c) eqn:Hc; [exact IH|]. simpl. rewrite Hc. reflexivity.
Qed.

Lemma rstrip_cons c s :
  rstrip (c :: s) =
  match rstrip s with
  | [] => if is_space c then [] else [c]
  | r => c :: r
  end.
Proof. reflexivity. Qed.

Lemma rstrip_idemp s : rstrip (rstrip s) = rstrip s.
Proof.
  induction s as [|c s IH]; [reflexivity|].
  rewrite (rstrip_cons c s).
  destruct (rstrip s) as [|d r] eqn:E.
  - destruct (is_space c) eqn:Hc; [reflexivity|].
    simpl. rewrite Hc. reflexivity.
  - rewrite rstrip_cons, IH. reflexivity.
Qed.

Lemma strip_idemp s : strip (strip s) = strip s.
Proof.
  unfold strip. rewrite lstrip_rstrip, lstrip_idemp, rstrip_idemp. reflexivity.
Qed.

Lemma strip_lstrip s : strip (lstrip s) = strip s.
Proof. unfold strip. rewrite lstrip_idemp. reflexivity. Qed.

Lemma strip_as_lstrip_rstrip s : strip s = lstrip (rstrip s).
Proof. unfold strip. rewrite lstrip_rstrip. reflexivity. Qed.

Lemma lstrip_lower s : lstrip (lower s) = lower (lstrip s).
Proof.
  induction s as [|c s IH]; simpl; [reflexivity|].
  rewrite is_space_lower_char. destruct (is_space c); [exact IH|reflexivity].
Qed.

Lemma rstrip_lower s : rstrip (lower s) = lower (rstrip s).
Proof.
  induction s as [|c s IH]; simpl; [reflexivity|].
  rewrite IH, is_space_lower_char.
  destruct (rstrip s); simpl; [|reflexivity].
  destruct (is_space c); reflexivity.
Qed.

Lemma strip_lower s : strip (lower s) = lower (strip s).
Proof. unfold strip. rewrite lstrip_lower, rstrip_lower. reflexivity. Qed.

(** A string without white space is its own [strip]. *)
Lemma strip_no_space s :
  Forall (fun c => is_space c = false) s -> strip s = s.
Proof.
  intros H. unfold strip.
  assert (lstrip s = s) as ->.
  { destruct H as [|c s Hc _]; simpl; [reflexivity|]. rewrite Hc. reflexivity. }
  induction H as [|c s Hc _ IH]; simpl; [reflexivity|].
  rewrite IH, Hc. destruct s; reflexivity.
Qed.

End Strip.

(** ** Splitting at a character *)

Section Split.

Lemma split_char_cons sep c s :
  split_char sep (c :: s) =
  if Ascii.eqb c sep then [] :: split_char sep s
  else match split_char sep s with
       | p :: ps => (c :: p) :: ps
       | [] => [[c]]
       end.
Proof. reflexivity. Qed.

Lemma split_char_not_nil sep s : split_char sep s <> [].
Proof.
  destruct s as [|c s]; simpl; [discriminate|].
  destruct (Ascii.eqb c sep); [discriminate|].
  destruct (split_char sep s); discriminate.
Qed.

(** A string in which [sep] does not occur is one piece. *)
Lemma split_char_absent sep s :
  Forall (fun c => Ascii.eqb c sep = false) s -> split_char sep s = [s].
Proof.
  induction 1 as [|c s Hc _ IH]; simpl; [reflexivity|].
  rewrite Hc, IH. reflexivity.
Qed.

Lemma split_char_app sep a b :
  Forall (fun c => Ascii.eqb c sep = false) a ->
  split_char sep (a ++ sep :: b) = a :: split_char sep b.
Proof.
  induction 1 as [|c a Hc _ IH]; simpl.
  - rewrite Ascii.eqb_refl. reflexivity.
  - rewrite Hc, IH. reflexivity.
Qed.

(** One piece only: the piece is the whole string. *)
Lemma split_char_singleton sep s t : split_char sep s = [t] -> t = s.
Proof.
  revert t. induction s as [|c s IH]; simpl; intros t H.
  - congruence.
  - destruct (Ascii.eqb c sep).
    + inversion H as [[H1 H2]]. destruct (split_char_not_nil _ _ H2).
    + destruct (split_char sep s) as [|p ps] eqn:E;
        [destruct (split_char_not_nil _ _ E)|].
      inversion H; subst. f_equal. apply IH. reflexivity.
Qed.

Lemma split_char_lower s :
  split_char "," (lower s) = map lower (split_char "," s).
Proof.
  induction s as [|c s IH]; simpl; [reflexivity|].
  rewrite lower_char_comma, IH.
  destruct (Ascii.eqb c ","); [reflexivity|].
  destruct (split_char "," s); reflexivity.
Qed.

Lemma blank_no_comma s :
  blank s -> Forall (fun c => Ascii.eqb c "," = false) s.
Proof.
  intros H. eapply Forall_impl; [exact H|]. intros c. apply is_space_not_comma.
Qed.

(** Stripping the whole expression changes its first and last term only,
    and by white space that the stripping of each term removes as well. *)
Lemma split_char_lstrip s :
  map strip (split_char "," (lstrip s)) = map strip (split_char "," s).
Proof.
  induction s as [|c s IH]; [reflexivity|].
  simpl lstrip. destruct (is_space c) eqn:Hc; [|reflexivity].
  rewrite IH, split_char_cons, (is_space_not_comma c Hc).
  destruct (split_char "," s) as [|p ps] eqn:E.
  - destruct (split_char_not_nil _ _ E).
  - simpl. f_equal. unfold strip. simpl. rewrite Hc. reflexivity.
Qed.

Lemma split_char_rstrip s :
  map rstrip (split_char "," (rstrip s)) = map rstrip (split_char "," s).
Proof.
  induction s as [|c s IH]; [reflexivity|].
  rewrite rstrip_cons.
  destruct (rstrip s) as [|d r] eqn:E.
  - pose proof (rstrip_nil_blank s E) as Hb.
    rewrite split_char_cons, (split_char_absent "," s (blank_no_comma s Hb)).
    destruct (Ascii.eqb c ",") eqn:Hcomma.
    + assert (is_space c = false) as ->.
      { destruct (is_space c) eqn:Hc; [|reflexivity].
        rewrite (is_space_not_comma c Hc) in Hcomma. discriminate. }
      simpl. rewrite Hcomma, E. reflexivity.
    + simpl map. rewrite E.
      destruct (is_space c) eqn:Hc; simpl; [reflexivity|].
      rewrite Hcomma. simpl. rewrite Hc. reflexivity.
  - rewrite (split_char_cons "," c (d :: r)), (split_char_cons "," c s).
    pose proof (split_char_not_nil "," (d :: r)) as HL.
    pose proof (split_char_not_nil "," s) as HR.
    destruct (split_char "," (d :: r)) as [|p' ps']; [congruence|].
    destruct (split_char "," s) as [|p ps]; [congruence|].
    injection IH as Hp Hps.
    destruct (Ascii.eqb c ","); cbn [map].
    + rewrite Hp, Hps. reflexivity.
    + rewrite Hps. f_equal. apply rstrip_cons_congr, Hp.
Qed.

Lemma split_char_strip s :
  map strip (split_char "," (strip s)) = map strip (split_char "," s).
Proof.
  rewrite <- (split_char_lstrip s).
  assert (Hmap : forall l, map strip l = map lstrip (map rstrip l)).
  { intros l. rewrite map_map. apply map_ext. intros x.
    apply strip_as_lstrip_rstrip. }
  rewrite !Hmap. unfold strip. rewrite split_char_rstrip. reflexivity.
Qed.

(** The terms the loop of the parser sees, each stripped, in terms of the
    pieces of the expression as it was typed. *)
Lemma stripped_terms s :
  map strip (split_char "," (lower (strip s)))
  = map (fun t => strip (lower t)) (split_char "," s).
Proof.
  rewrite <- strip_lower, split_char_strip, split_char_lower, map_map.
  reflexivity.
Qed.

End Split.

(** ** The selection parser *)

Section Selection.

Variable total_videos : Z.

(** A term either fails whatever has been collected, or adds a set of its
    own, within the bounds, to what has been collected. *)
Lemma term_spec part :
  (exists e, forall X, term total_videos X part = Raise e)
  \/ (exists S, (forall X, term total_videos X part = Ok (X ∪ S))
                /\ in_bounds total_videos S).
Proof.
  unfold term.
  destruct (contains (chars "-") (strip part)).
  - unfold range_term.
    destruct (split_char "-" (strip part)) as [|a [|b [|c l]]];
      try (left; eexists; intros X; reflexivity).
    destruct (int (strip a)) as [start_idx|e];
      [|left; eexists; intros X; reflexivity].
    destruct (int (strip b)) as [end_idx|e];
      [|left; eexists; intros X; reflexivity].
    simpl.
    destruct ((start_idx <? 1) || (end_idx >? total_videos)
              || (start_idx >? end_idx)) eqn:Hc;
      [left; eexists; intros X; reflexivity|].
    right. exists (list_to_set (range start_idx (end_idx + 1))).
    split; [intros X; reflexivity|].
    intros i Hi. unfold range in Hi.
    apply elem_of_list_to_set, elem_of_seqZ in Hi.
    apply orb_false_elim in Hc as [Hc H3].
    apply orb_false_elim in Hc as [H1 H2].
    rewrite Z.gtb_ltb in H2, H3. lia.
  - unfold single_term.
    destruct (int (strip part)) as [idx|e];
      [|left; eexists; intros X; reflexivity].
    simpl.
    destruct ((idx <? 1) || (idx >? total_videos)) eqn:Hc;
      [left; eexists; intros X; reflexivity|].
    right. exists {[ idx ]}.
    split; [intros X; reflexivity|].
    intros i Hi. apply elem_of_singleton in Hi. subst i.
    apply orb_false_elim in Hc as [H1 H2].
    rewrite Z.gtb_ltb in H2. lia.
Qed.

Lemma term_strip X part :
  term total_videos X (strip part) = term total_videos X part.
Proof. unfold term. rewrite strip_idemp. reflexivity. Qed.

(** The loop reads each term through [strip] only. *)
Lemma for_parts_stripped parts parts' X :
  map strip parts = map strip parts' ->
  for_parts total_videos X parts = for_parts total_videos X parts'.
Proof.
  revert parts' X.
  induction parts as [|p parts IH]; intros [|p' parts'] X H;
    try discriminate; [reflexivity|].
  injection H as Hp Hps. simpl.
  rewrite <- (term_strip X p), Hp, term_strip.
  destruct (term total_videos X p') as [X'|e]; simpl; [|reflexivity].
  apply IH, Hps.
Qed.

Lemma for_parts_bounds parts X Y :
  for_parts total_videos X parts = Ok Y ->
  in_bounds total_videos X -> in_bounds total_videos Y.
Proof.
  revert X. induction parts as [|p parts IH]; simpl; intros X H HX.
  - injection H as <-. exact HX.
  - destruct (term_spec p) as [[e He]|[S [HS Hb]]]; rewrite ?He, ?HS in H.
    + discriminate.
    + simpl in H. apply (IH _ H).
      intros i Hi. apply elem_of_union in Hi as [Hi|Hi]; auto.
Qed.

(** The order of the terms does not matter to a loop that ends well. *)
Lemma for_parts_perm parts parts' :
  parts ≡ₚ parts' ->
  forall X Y,
    for_parts total_videos X parts = Ok Y ->
    for_parts total_videos X parts' = Ok Y.
Proof.
  induction 1 as [|p l l' _ IH|p q l|l l' l'' _ IH1 _ IH2]; intros X Y H.
  - exact H.
  - simpl in *.
    destruct (term total_videos X p) as [X'|e]; simpl in *; [|discriminate].
    apply IH, H.
  - simpl in *.
    destruct (term_spec p) as [[e He]|[Sp [Hp _]]];
      destruct (term_spec q) as [[e' He']|[Sq [Hq _]]];
      rewrite ?He, ?He', ?Hp, ?Hq in *; simpl in *;
      rewrite ?He, ?He', ?Hp, ?Hq in *; simpl in *; try discriminate.
    replace (X ∪ Sp ∪ Sq) with (X ∪ Sq ∪ Sp); [exact H|].
    apply set_eq. intros i. rewrite !elem_of_union. tauto.
  - apply IH2, IH1, H.
Qed.

End Selection.

Section Sorted.

Lemma StronglySorted_le_lt (l : list Z) :
  StronglySorted Z.le l -> NoDup l -> StronglySorted Z.lt l.
Proof.
  induction 1 as [|x l Hs IH Hx]; intros Hnd; constructor.
  - apply IH. apply NoDup_cons in Hnd as [_ Hnd]. exact Hnd.
  - apply NoDup_cons in Hnd as [Hnotin _].
    apply Forall_forall. intros y Hy.
    rewrite Forall_forall in Hx. specialize (Hx y Hy).
    assert (x <> y) by (intros ->; exact (Hnotin Hy)). lia.
Qed.

(** [sorted(list(indices))] *)
Lemma sorted_elements (X : gset Z) :
  StronglySorted Z.lt (merge_sort Z.le (elements X))
  /\ NoDup (merge_sort Z.le (elements X))
  /\ forall i, i ∈ merge_sort Z.le (elements X) <-> i ∈ X.
Proof.
  assert (Hp : merge_sort Z.le (elements X) ≡ₚ elements X)
    by apply merge_sort_Permutation.
  assert (Hnd : NoDup (merge_sort Z.le (elements X))).
  { rewrite Hp. apply NoDup_elements. }
  split; [|split]; [|exact Hnd|].
  - apply StronglySorted_le_lt; [|exact Hnd].
    apply StronglySorted_merge_sort; apply _.
  - intros i. rewrite Hp. apply elem_of_elements.
Qed.

Lemma seqZ_as_seq (n : Z) :
  seqZ 1 n = map Z.of_nat (seq 1 (Z.to_nat n)).
Proof.
  unfold seqZ. rewrite <- seq_shift, map_map.
  apply map_ext. intros i. lia.
Qed.

Lemma seq_sorted (a k : nat) :
  StronglySorted Z.lt (map Z.of_nat (seq a k)).
Proof.
  revert a. induction k as [|k IH]; intros a; simpl; constructor.
  - apply IH.
  - apply Forall_forall. intros y Hy.
    apply list_elem_of_In, in_map_iff in Hy as [i [<- Hi]].
    apply in_seq in Hi. lia.
Qed.

End Sorted.

Section SelectionClaims.

Lemma for_parts_typed total_videos X selection :
  for_parts total_videos X (split_char "," (lower (strip selection)))
  = for_parts total_videos X
      (map (fun t => strip (lower t)) (split_char "," selection)).
Proof.
  apply for_parts_stripped.
  rewrite stripped_terms, map_map. apply map_ext.
  intros t. symmetry. apply strip_idemp.
Qed.

(** An expression that reads [all] has no comma: it is its only term. *)
Lemma all_literal_single selection :
  lower (strip selection) = chars "all" ->
  split_char "," selection = [selection].
Proof.
  intros H. pose proof (stripped_terms selection) as Ht.
  rewrite H in Ht.
  destruct (split_char "," selection) as [|t [|t' l]] eqn:E;
    try discriminate.
  f_equal. apply (split_char_singleton _ _ _ E).
Qed.

Lemma all_literal_perm selection selection' :
  split_char "," selection ≡ₚ split_char "," selection' ->
  lower (strip selection) = chars "all" -> selection' = selection.
Proof.
  intros Hp H. rewrite (all_literal_single _ H) in Hp.
  apply Permutation_singleton_l in Hp.
  symmetry. apply (split_char_singleton "," selection' selection).
  symmetry. exact Hp.
Qed.

Lemma blank_lower s : blank s -> blank (lower s).
Proof.
  induction 1 as [|c s Hc _ IH]; constructor; [|exact IH].
  rewrite is_space_lower_char. exact Hc.
Qed.

(** C1. For every total count and every expression on which parsing
    succeeds, the list [parse_video_selection] returns is strictly
    ascending, has no duplicates and lies within [1, total_videos]; and an
    expression with the same comma-separated terms in another order gives
    the same list. *)
Theorem parse_video_selection_sorted_set :
  (forall selection total_videos r,
     parse_video_selection selection total_videos = Ok r ->
     StronglySorted Z.lt r /\ NoDup r
     /\ Forall (fun i => 1 <= i <= total_videos) r)
  /\ (forall selection selection' total_videos r,
        split_char "," selection ≡ₚ split_char "," selection' ->
        parse_video_selection selection total_videos = Ok r ->
        parse_video_selection selection' total_videos = Ok r).
Proof.
  split.
  - intros selection total_videos r. unfold parse_video_selection.
    case_bool_decide as Hall.
    + intros [= <-]. unfold range. split; [|split].
      * rewrite seqZ_as_seq. apply seq_sorted.
      * apply NoDup_seqZ.
      * apply Forall_forall. intros i Hi. apply elem_of_seqZ in Hi. lia.
    + destruct (for_parts _ _ _) as [Y|e] eqn:E; simpl; [|discriminate].
      intros [= <-].
      destruct (sorted_elements Y) as [Hs [Hnd Hin]].
      split; [exact Hs|split; [exact Hnd|]].
      apply Forall_forall. intros i Hi. apply Hin in Hi.
      refine (for_parts_bounds total_videos _ ∅ Y E _ i Hi).
      intros j Hj. apply not_elem_of_empty in Hj. destruct Hj.
  - intros selection selection' total_videos r Hp.
    unfold parse_video_selection.
    case_bool_decide as Hall.
    { rewrite (all_literal_perm _ _ Hp Hall).
      rewrite bool_decide_eq_true_2 by exact Hall. auto. }
    case_bool_decide as Hall'.
    { symmetry in Hp. rewrite (all_literal_perm _ _ Hp Hall') in Hall.
      contradiction. }
    rewrite !for_parts_typed.
    destruct (for_parts _ _ _) as [Y|e] eqn:E; simpl; [|discriminate].
    intros [= <-].
    rewrite (for_parts_perm total_videos _ _
               (Permutation_map (fun t => strip (lower t)) Hp) ∅ Y E).
    reflexivity.
Qed.

Lemma parse_video_selection_sorted_set_witness :
  split_char "," (chars "7,1-3,10-12")
    ≡ₚ split_char "," (chars "1-3,7,10-12")
  /\ parse_video_selection (chars "7,1-3,10-12") 12
     = Ok [1; 2; 3; 7; 10; 11; 12]
  /\ parse_video_selection (chars "1-3,7,10-12") 12
     = Ok [1; 2; 3; 7; 10; 11; 12]
  /\ StronglySorted Z.lt [1; 2; 3; 7; 10; 11; 12].
Proof.
  assert (Hp : split_char "," (chars "7,1-3,10-12")
                 ≡ₚ split_char "," (chars "1-3,7,10-12"))
    by (vm_compute; apply perm_swap).
  assert (Hr : parse_video_selection (chars "7,1-3,10-12") 12
               = Ok [1; 2; 3; 7; 10; 11; 12])
    by (vm_compute; reflexivity).
  split; [exact Hp|split; [exact Hr|split]].
  - exact (proj2 parse_video_selection_sorted_set _ _ _ _ Hp Hr).
  - exact (proj1 (proj1 parse_video_selection_sorted_set _ _ _ Hr)).
Defined.

Example parse_mixed :
  parse_video_selection (chars "1-3,7,10-12") 12 = Ok [1; 2; 3; 7; 10; 11; 12].
Proof. vm_compute. reflexivity. Qed.

Example parse_mixed_reordered :
  parse_video_selection (chars "7,1-3,10-12") 12 = Ok [1; 2; 3; 7; 10; 11; 12].
Proof. vm_compute. reflexivity. Qed.

Example parse_overlap :
  parse_video_selection (chars " 2-4, 3 ,1-2") 5 = Ok [1; 2; 3; 4].
Proof. vm_compute. reflexivity. Qed.

(** C3. On the token [all], in any case and with white space around it,
    and a count [N >= 0], [parse_video_selection] returns 1, 2, ..., N. *)
Theorem parse_video_selection_all ws1 core ws2 N :
  blank ws1 -> blank ws2 -> lower core = chars "all" -> 0 <= N ->
  parse_video_selection (ws1 ++ core ++ ws2) N
  = Ok (map Z.of_nat (seq 1 (Z.to_nat N))).
Proof.
  intros H1 H2 Hcore HN. unfold parse_video_selection.
  assert (Hall : lower (strip (ws1 ++ core ++ ws2)) = chars "all").
  { rewrite <- strip_lower. unfold lower. rewrite !map_app.
    fold (lower ws1) (lower core) (lower ws2). rewrite Hcore.
    unfold strip. rewrite (lstrip_blank_app _ _ (blank_lower _ H1)).
    change (lstrip (chars "all" ++ lower ws2))
      with (chars "all" ++ lower ws2).
    rewrite (rstrip_app_blank _ _ (blank_lower _ H2)). reflexivity. }
  rewrite bool_decide_eq_true_2 by exact Hall.
  unfold range. replace (N + 1 - 1) with N by lia.
  rewrite seqZ_as_seq. reflexivity.
Qed.

Lemma parse_video_selection_all_witness :
  parse_video_selection (chars "  " ++ chars "aLL" ++ [nl]) 3 = Ok [1; 2; 3].
Proof.
  apply (parse_video_selection_all (chars "  ") (chars "aLL") [nl] 3).
  - repeat constructor.
  - repeat constructor.
  - reflexivity.
  - lia.
Defined.

(** C10. On the empty string and on every string of white space only,
    [parse_video_selection] itself raises a [ValueError], the one for an
    invalid number, whatever the count. *)
Theorem parse_video_selection_blank s N :
  blank s ->
  parse_video_selection s N
  = Raise (ValueErrorFrom (chars "Invalid number: ") (InvalidLiteral [])).
Proof.
  intros H. unfold parse_video_selection.
  rewrite (strip_blank s H). vm_compute. reflexivity.
Qed.

Lemma parse_video_selection_blank_witness :
  parse_video_selection [] 5
  = Raise (ValueErrorFrom (chars "Invalid number: ") (InvalidLiteral []))
  /\ parse_video_selection (chars "   ") 5
     = Raise (ValueErrorFrom (chars "Invalid number: ") (InvalidLiteral [])).
Proof.
  split.
  - apply (parse_video_selection_blank [] 5). constructor.
  - apply (parse_video_selection_blank (chars "   ") 5). repeat constructor.
Defined.

(** What the code does with a term without a hyphen whose number is out of
    range: the error raised inside the [try] is caught by its own
    [except ValueError] and comes out as the cause of an invalid-number
    error. *)
Lemma single_term_out_of_range part total_videos indices idx :
  int part = Ok idx -> idx < 1 \/ total_videos < idx ->
  single_term part total_videos indices
  = Raise (ValueErrorFrom (chars "Invalid number: " ++ part)
             (ValueError (chars "Index out of range: " ++ str_of_int idx))).
Proof.
  intros Hint Hout. unfold single_term. rewrite Hint. simpl.
  assert ((idx <? 1) || (idx >? total_videos) = true) as ->.
  { rewrite Z.gtb_ltb. apply orb_true_iff.
    destruct Hout; [left; apply Z.ltb_lt|right; apply Z.ltb_lt]; lia. }
  reflexivity.
Qed.

(** C2, at the inputs of the specification.  An index out of range and a
    token that is no number come out of the parser as the same error,
    [Invalid number: ...]; a range out of bounds and a malformed range as
    the same error, [Invalid range format: ...].  The errors
    [Index out of range: ...] and [Invalid range: ...] are raised, but
    inside the [try] whose handler replaces them: they are left as the
    cause. *)
Theorem parse_video_selection_reported_errors :
  parse_video_selection (chars "6") 5
  = Raise (ValueErrorFrom (chars "Invalid number: 6")
             (ValueError (chars "Index out of range: 6")))
  /\ parse_video_selection (chars "0") 5
     = Raise (ValueErrorFrom (chars "Invalid number: 0")
                (ValueError (chars "Index out of range: 0")))
  /\ parse_video_selection (chars "x") 5
     = Raise (ValueErrorFrom (chars "Invalid number: x")
                (InvalidLiteral (chars "x")))
  /\ parse_video_selection (chars "5-2") 10
     = Raise (ValueErrorFrom (chars "Invalid range format: 5-2")
                (ValueError (chars "Invalid range: 5-2")))
  /\ parse_video_selection (chars "a-b") 10
     = Raise (ValueErrorFrom (chars "Invalid range format: a-b")
                (InvalidLiteral (chars "a"))).
Proof. repeat split; vm_compute; reflexivity. Qed.

End SelectionClaims.

(** ** The format selector *)

Section FormatSelector.

Lemma remove_char_numeral d :
  Forall (fun c => is_digit c = true) d -> remove_char "p" d = d.
Proof.
  unfold remove_char. induction 1 as [|c d Hc _ IH]; [reflexivity|].
  rewrite filter_cons_True by (apply is_digit_not_p, Hc).
  rewrite IH. reflexivity.
Qed.

Lemma remove_char_starts_blank s :
  starts_blank s -> starts_blank (remove_char "p" s).
Proof.
  destruct s as [|c s]; [intros _; exact I|]. simpl. intros Hc.
  unfold remove_char. rewrite filter_cons_True; [exact Hc|].
  intros ->. discriminate.
Qed.

(** A word followed by white space, or by nothing, is the first token. *)
Lemma split_ws_first w tail :
  w <> [] -> Forall (fun c => is_space c = false) w -> starts_blank tail ->
  split_ws (w ++ tail) = w :: split_ws tail.
Proof.
  intros Hne Hw Ht. induction Hw as [|c w Hc Hw IH]; [congruence|].
  destruct w as [|c' w].
  - simpl. rewrite Hc. destruct tail as [|d r]; [reflexivity|].
    simpl in Ht. rewrite Ht. reflexivity.
  - assert (Hc' : is_space c' = false) by (inversion Hw; assumption).
    change (split_ws ((c :: c' :: w) ++ tail))
      with (if is_space c then split_ws ((c' :: w) ++ tail)
            else if is_space c' then [c] :: split_ws ((c' :: w) ++ tail)
            else match split_ws ((c' :: w) ++ tail) with
                 | x :: xs => (c :: x) :: xs
                 | [] => [[c]]
                 end).
    rewrite Hc, Hc', IH by discriminate. reflexivity.
Qed.

Lemma numeral_no_space h :
  Forall (fun c => is_digit c = true) h ->
  Forall (fun c => is_space c = false) h.
Proof.
  intros H. eapply Forall_impl; [exact H|]. apply is_digit_not_space.
Qed.

Lemma split_char_join sep pieces :
  pieces <> [] ->
  Forall (Forall (fun c => Ascii.eqb c sep = false)) pieces ->
  split_char sep (join sep pieces) = pieces.
Proof.
  intros Hne H. induction H as [|x l Hx Hl IH]; [congruence|].
  destruct l as [|y l].
  - simpl. apply split_char_absent, Hx.
  - change (join sep (x :: y :: l)) with (x ++ sep :: join sep (y :: l)).
    rewrite (split_char_app sep x _ Hx), IH by discriminate. reflexivity.
Qed.

Lemma build_format_string_join quality h rest :
  split_ws (remove_char "p" quality) = h :: rest ->
  build_format_string quality = Ok (join "/" (format_tiers (strip h))).
Proof.
  intros H. unfold build_format_string. rewrite H. f_equal.
  unfold format_tiers, join. cbn [chars list_ascii_of_string].
  repeat (rewrite <- ?app_assoc; cbn [app]; repeat f_equal).
Qed.

Lemma format_tiers_no_slash h :
  Forall (fun c => is_digit c = true) h ->
  Forall (Forall (fun c => Ascii.eqb c "/" = false)) (format_tiers h).
Proof.
  intros H.
  assert (Hh : Forall (fun c => Ascii.eqb c "/" = false) h).
  { eapply Forall_impl; [exact H|]. apply is_digit_not_slash. }
  unfold format_tiers.
  repeat (apply Forall_cons; split);
    repeat (apply Forall_app; split);
    try exact Hh; try (vm_compute; repeat constructor).
Qed.

(** C4. A compound label such as [1080p (FHD)] and its bare numeral give
    the same selector; and whenever the height extracted is a numeral [h],
    the selector is four alternatives bounded by [height<=h] followed by the
    unconditional [best]. *)
Theorem build_format_string_tiers :
  build_format_string (chars "1080p (FHD)")
  = build_format_string (chars "1080")
  /\ (forall d label,
        numeral d -> starts_blank label ->
        build_format_string (d ++ "p"%char :: label) = build_format_string d)
  /\ (forall quality h rest,
        split_ws (remove_char "p" quality) = h :: rest -> numeral h ->
        exists out,
          build_format_string quality = Ok out
          /\ split_char "/" out = format_tiers h).
Proof.
  split; [vm_compute; reflexivity|split].
  - intros d label [Hne Hd] Hl.
    assert (H1 : split_ws (remove_char "p" (d ++ "p"%char :: label))
                 = d :: split_ws (remove_char "p" label)).
    { unfold remove_char. rewrite filter_app.
      fold (remove_char "p" d). rewrite (remove_char_numeral d Hd).
      rewrite filter_cons_False by (intros Hp; apply Hp; reflexivity).
      apply split_ws_first;
        [exact Hne|apply numeral_no_space, Hd
        |apply remove_char_starts_blank, Hl]. }
    assert (H2 : split_ws (remove_char "p" d) = [d]).
    { rewrite (remove_char_numeral d Hd), <- (app_nil_r d) at 1.
      apply (split_ws_first d []);
        [exact Hne|apply numeral_no_space, Hd|exact I]. }
    rewrite (build_format_string_join _ _ _ H1),
            (build_format_string_join _ _ _ H2). reflexivity.
  - intros quality h rest H [Hne Hh].
    exists (join "/" (format_tiers h)). split.
    + rewrite (build_format_string_join _ _ _ H).
      rewrite (strip_no_space h (numeral_no_space h Hh)). reflexivity.
    + apply split_char_join; [discriminate|apply format_tiers_no_slash, Hh].
Qed.

Lemma build_format_string_tiers_witness :
  build_format_string (chars "720" ++ "p"%char :: chars " (HD)")
  = build_format_string (chars "720")
  /\ exists out,
       build_format_string (chars "720p (HD)") = Ok out
       /\ split_char "/" out = format_tiers (chars "720").
Proof.
  assert (Hn : numeral (chars "720"))
    by (split; [discriminate|repeat constructor]).
  split.
  - apply (proj1 (proj2 build_format_string_tiers));
      [exact Hn|reflexivity].
  - apply (proj2 (proj2 build_format_string_tiers)
             (chars "720p (HD)") (chars "720") [chars "(HD)"]);
      [vm_compute; reflexivity|exact Hn].
Defined.

End FormatSelector.

(** ** Substrings *)

Section Substrings.

Lemma startswith_spec p s :
  startswith p s = true <-> exists t, s = p ++ t.
Proof.
  revert s. induction p as [|a p IH]; intros s; simpl.
  - split; [intros _; exists s; reflexivity|reflexivity].
  - destruct s as [|b s].
    + split; [discriminate|intros [t Ht]; discriminate].
    + rewrite andb_true_iff, Ascii.eqb_eq, IH. split.
      * intros [-> [t ->]]. exists t. reflexivity.
      * intros [t [= -> ->]]. split; [reflexivity|exists t; reflexivity].
Qed.

Lemma contains_spec sub s :
  contains sub s = true <-> exists pre post, s = pre ++ sub ++ post.
Proof.
  induction s as [|c s IH]; simpl.
  - rewrite startswith_spec. split.
    + intros [t Ht]. exists [], t. exact Ht.
    + intros [pre [post H]]. destruct pre; [exists post; exact H|discriminate].
  - rewrite orb_true_iff, startswith_spec, IH. split.
    + intros [[t Ht]|[pre [post H]]].
      * exists [], t. exact Ht.
      * exists (c :: pre), post. rewrite H. reflexivity.
    + intros [[|c' pre] [post H]].
      * left. exists post. exact H.
      * right. injection H as -> ->. exists pre, post. reflexivity.
Qed.

Lemma contains_app_r a b s :
  contains (a ++ b) s = true -> contains b s = true.
Proof.
  rewrite !contains_spec. intros [pre [post ->]].
  exists (pre ++ a), post. rewrite <- !app_assoc. reflexivity.
Qed.

Lemma contains_char_app c before rest :
  contains [c] (before ++ c :: rest) = true.
Proof. apply contains_spec. exists before, rest. reflexivity. Qed.

Lemma split_str_from_not_nil sep k s : split_str_from sep k s <> [].
Proof.
  revert k. induction s as [|c s IH]; intros k; simpl; [discriminate|].
  destruct k as [|k]; [|apply IH].
  destruct (startswith sep (c :: s)); [discriminate|].
  destruct (split_str_from sep 0 s); discriminate.
Qed.

(** Where the separator occurs there is a second piece. *)
Lemma split_str_second sep s :
  sep <> [] -> contains sep s = true ->
  exists piece, split_str sep s !! 1%nat = Some piece.
Proof.
  intros Hsep. unfold split_str.
  induction s as [|c s IH]; simpl; intros H.
  - destruct sep; [congruence|discriminate].
  - destruct (startswith sep (c :: s)) eqn:E.
    + destruct (split_str_from sep (length sep - 1) s) as [|p ps] eqn:E';
        [destruct (split_str_from_not_nil _ _ _ E')|].
      exists p. reflexivity.
    + simpl in H. destruct (IH H) as [piece Hpiece].
      destruct (split_str_from sep 0 s) as [|p ps]; [discriminate|].
      exists piece. exact Hpiece.
Qed.

(** Where it does not occur the string is one piece. *)
Lemma split_str_absent sep s :
  contains sep s = false -> split_str sep s = [s].
Proof.
  unfold split_str. induction s as [|c s IH]; simpl; intros H; [reflexivity|].
  apply orb_false_elim in H as [H1 H2].
  rewrite H1, (IH H2). reflexivity.
Qed.

Lemma split_str_from_skip sep x rest :
  split_str_from sep (length x) (x ++ rest) = split_str_from sep 0 rest.
Proof. induction x as [|c x IH]; [reflexivity|exact IH]. Qed.

Lemma startswith_app_same sep rest : startswith sep (sep ++ rest) = true.
Proof.
  induction sep as [|a sep IH]; [reflexivity|].
  cbn [app startswith]. rewrite Ascii.eqb_refl. exact IH.
Qed.

Lemma startswith_app_false p a b :
  (length p <= length a)%nat ->
  startswith p a = false -> startswith p (a ++ b) = false.
Proof.
  revert a. induction p as [|x p IH]; intros [|y a] Hlen; cbn [app startswith];
    try discriminate; [cbn [length] in Hlen; lia|].
  intros H. apply andb_false_iff in H as [H|H].
  - rewrite H. reflexivity.
  - rewrite (IH a) by (cbn [length] in Hlen; lia || exact H).
    apply andb_false_r.
Qed.

(** The first occurrence of a separator [d ++ [x]]: no occurrence begins
    in what is before it. *)
Lemma split_str_first d x before rest :
  contains (d ++ [x]) (before ++ d) = false ->
  split_str (d ++ [x]) (before ++ (d ++ [x]) ++ rest)
  = before :: split_str (d ++ [x]) rest.
Proof.
  unfold split_str. induction before as [|c before IH]; intros H.
  - cbn [app]. pose proof (startswith_app_same (d ++ [x]) rest) as Hs.
    assert (Hl : length (d ++ [x]) = S (length d))
      by (rewrite length_app; cbn [length]; lia).
    destruct (d ++ [x]) as [|a sep] eqn:E; [discriminate Hl|].
    cbn [app split_str_from]. cbn [app] in Hs. rewrite Hs.
    replace (length (a :: sep) - 1)%nat with (length sep)
      by (cbn [length]; lia).
    rewrite split_str_from_skip. reflexivity.
  - cbn [app contains] in H. apply orb_false_elim in H as [H1 H2].
    assert (Hs : startswith (d ++ [x]) (c :: before ++ (d ++ [x]) ++ rest)
                 = false).
    { replace (c :: before ++ (d ++ [x]) ++ rest)
        with ((c :: before ++ d) ++ [x] ++ rest)
        by (cbn [app]; rewrite <- !app_assoc; reflexivity).
      apply startswith_app_false; [|exact H1].
      cbn [length]. rewrite !length_app. cbn [length]. lia. }
    cbn [app split_str_from]. rewrite Hs, (IH H2). reflexivity.
Qed.

(** The line yt-dlp writes for a new file: where [Destination:] occurs
    once, the second piece is all that follows it. *)
Lemma split_str_destination before rest :
  contains (chars "Destination:") (before ++ chars "Destination") = false ->
  contains (chars "Destination:") rest = false ->
  split_str (chars "Destination:") (before ++ chars "Destination:" ++ rest)
    !! 1%nat
  = Some rest.
Proof.
  intros Hb Hr.
  change (chars "Destination:") with (chars "Destination" ++ [":"%char]).
  rewrite (split_str_first _ _ _ _ Hb).
  change (chars "Destination" ++ [":"%char]) with (chars "Destination:").
  rewrite (split_str_absent _ _ Hr). reflexivity.
Qed.

End Substrings.

(** ** The progress scanners *)

Section ScannerClaims.

Variable F : Type.
Variable float : str -> option F.
Variable path_name : str -> str.

(** The single-video loop keeps every line, in order. *)
Lemma single_scan_lines_all_output lines :
  all_output (single_scan_lines F float lines) = lines.
Proof.
  unfold single_scan_lines.
  assert (H : forall st,
             all_output (fold_left (single_step F float) lines st)
             = all_output st ++ lines).
  { induction lines as [|l lines IH]; intros st; simpl.
    - rewrite app_nil_r. reflexivity.
    - rewrite IH. unfold single_step.
      destruct (_ && _); [destruct (percent_of _ _ _)|]; simpl;
        rewrite <- app_assoc; reflexivity. }
  rewrite H. reflexivity.
Qed.

Lemma percent_of_before before rest :
  Forall (fun c => Ascii.eqb c "%" = false) before ->
  percent_of F float (before ++ "%"%char :: rest)
  = match last (split_ws before) with
    | None => Raise IndexError
    | Some token =>
        match float token with
        | Some f => Ok f
        | None => Raise (InvalidFloat token)
        end
    end.
Proof.
  intros H. unfold percent_of. rewrite (split_char_app "%" _ _ H).
  reflexivity.
Qed.

(** C5, amended.  A line with a destination announcement makes the playlist
    scanner put the percentage back to 0 and show a name of 40 characters at
    most; where [Destination:] occurs once in the line, what follows it is
    the file announced, and the name shown is the base name of that file,
    cut to 37 characters and three dots when it has more than 40, as it is
    otherwise. *)
Theorem playlist_step_destination st line :
  contains (chars "[download] Destination:") line = true ->
  exists st',
    playlist_step F float path_name st line = Ok st'
    /\ completed st' = Int 0
    /\ current_file st' = description st'
    /\ (length (description st') <= 40)%nat
    /\ forall before rest,
         line = before ++ chars "Destination:" ++ rest ->
         contains (chars "Destination:") (before ++ chars "Destination")
         = false ->
         contains (chars "Destination:") rest = false ->
         description st'
         = let name := path_name (strip rest) in
           if (40 <? length name)%nat then take 37 name ++ chars "..."
           else name.
Proof.
  intros H.
  destruct (split_str_second (chars "Destination:") line) as [piece Hp];
    [discriminate|exact (contains_app_r (chars "[download] ") _ _ H)|].
  unfold playlist_step. rewrite H, Hp.
  eexists. split; [reflexivity|].
  cbn [completed current_file description].
  split; [reflexivity|]. split; [reflexivity|]. split.
  - set (base := path_name (strip piece)).
    destruct (40 <? length base)%nat eqn:E.
    + apply Nat.ltb_lt in E. rewrite length_app, length_take.
      change (length (chars "...")) with 3%nat. lia.
    + apply Nat.ltb_ge in E. exact E.
  - intros before rest -> Hb Hr.
    rewrite (split_str_destination before rest Hb Hr) in Hp.
    injection Hp as <-. reflexivity.
Qed.

(** C6, amended.  A line with the download marker and a percent sign: the
    single-video scanner sets the percentage to the float read from the last
    white-space-delimited field before the first percent sign, and keeps the
    percentage it had when there is no such field or it is no float; so does
    the playlist scanner unless the line is a destination announcement. *)
Theorem percent_line_updates before rest :
  Forall (fun c => Ascii.eqb c "%" = false) before ->
  contains (chars "[download]") (before ++ "%"%char :: rest) = true ->
  (forall st,
     single_step F float st (before ++ "%"%char :: rest)
     = {| all_output := all_output st ++ [before ++ "%"%char :: rest];
          single_completed :=
            match last (split_ws before) with
            | Some token =>
                match float token with
                | Some f => Float f
                | None => single_completed st
                end
            | None => single_completed st
            end |})
  /\ (forall st,
        contains (chars "[download] Destination:") (before ++ "%"%char :: rest)
        = false ->
        playlist_step F float path_name st (before ++ "%"%char :: rest)
        = Ok {| current_file := current_file st;
                description := description st;
                completed :=
                  match last (split_ws before) with
                  | Some token =>
                      match float token with
                      | Some f => Float f
                      | None => completed st
                      end
                  | None => completed st
                  end |}).
Proof.
  intros Hb Hm.
  pose proof (contains_char_app "%" before rest) as Hpc.
  change (contains [ "%"%char ]) with (contains (chars "%")) in Hpc.
  split.
  - intros st. unfold single_step.
    rewrite Hm, Hpc, (percent_of_before _ _ Hb). simpl.
    destruct (last (split_ws before)) as [token|]; [|reflexivity].
    destruct (float token); reflexivity.
  - intros st Hd. unfold playlist_step.
    rewrite Hd, Hm, Hpc, (percent_of_before _ _ Hb). simpl.
    destruct (last (split_ws before)) as [token|]; [|destruct st; reflexivity].
    destruct (float token); [reflexivity|destruct st; reflexivity].
Qed.

(** C7, amended.  In the playlist scanner, a line that is no destination
    announcement and has not both the download marker and a percent sign,
    and that says the file has already been downloaded or holds [100%],
    sets the percentage to 100. *)
Theorem playlist_step_complete st line :
  contains (chars "[download] Destination:") line = false ->
  contains (chars "[download]") line && contains (chars "%") line = false ->
  contains (chars "has already been downloaded") line = true
  \/ contains (chars "100%") line = true ->
  playlist_step F float path_name st line
  = Ok {| current_file := current_file st;
          description := description st;
          completed := Int 100 |}.
Proof.
  intros Hd Hp Hc. unfold playlist_step. rewrite Hd, Hp.
  assert (contains (chars "has already been downloaded") line
          || contains (chars "100%") line = true) as ->.
  { apply orb_true_iff. exact Hc. }
  reflexivity.
Qed.

(** The single-video scanner has one rule only: a line without the download
    marker or without a percent sign changes nothing but [all_output]. *)
Lemma single_step_other st line :
  contains (chars "[download]") line && contains (chars "%") line = false ->
  single_step F float st line
  = {| all_output := all_output st ++ [line];
       single_completed := single_completed st |}.
Proof. intros H. unfold single_step. rewrite H. reflexivity. Qed.

(** The playlist scanner never raises. *)
Lemma playlist_step_total st line :
  exists st', playlist_step F float path_name st line = Ok st'.
Proof.
  destruct (contains (chars "[download] Destination:") line) eqn:Hd.
  - destruct (split_str_second (chars "Destination:") line) as [piece Hp];
      [discriminate|exact (contains_app_r (chars "[download] ") _ _ Hd)|].
    unfold playlist_step. rewrite Hd, Hp. eexists. reflexivity.
  - unfold playlist_step. rewrite Hd.
    destruct (_ && _); [destruct (percent_of _ _ _)|destruct (_ || _)];
      eexists; reflexivity.
Qed.

End ScannerClaims.

(** ** The scanners on lines of yt-dlp *)

Section ScannerRuns.

Example destination_then_progress :
  step start (chars "[download] Destination: /home/u/My Video.mp4" ++ [nl])
  = Ok {| current_file := chars "My Video.mp4";
          description := chars "My Video.mp4";
          completed := Int 0 |}
  /\ step {| current_file := chars "My Video.mp4";
             description := chars "My Video.mp4";
             completed := Int 0 |}
       (chars "[download]  57.3% of 10.00MiB at 1.00MiB/s ETA 00:04" ++ [nl])
     = Ok {| current_file := chars "My Video.mp4";
             description := chars "My Video.mp4";
             completed := Float (573 # 10) |}.
Proof. split; vm_compute; reflexivity. Qed.

Example destination_long_name :
  step start
    (chars "[download] Destination: out/0123456789012345678901234567890123456789.mp4")
  = Ok {| current_file := chars "0123456789012345678901234567890123456...";
          description := chars "0123456789012345678901234567890123456...";
          completed := Int 0 |}.
Proof. vm_compute. reflexivity. Qed.

Lemma playlist_step_destination_witness :
  exists st',
    step start (chars "[download] " ++ chars "Destination:"
                ++ chars " /home/u/My Video.mp4" ++ [nl]) = Ok st'
    /\ completed st' = Int 0
    /\ description st' = chars "My Video.mp4".
Proof.
  destruct (playlist_step_destination Q float_decimal posix_name start
              (chars "[download] " ++ chars "Destination:"
               ++ chars " /home/u/My Video.mp4" ++ [nl]))
    as (st' & Hs & Hc & _ & _ & Hname).
  - vm_compute. reflexivity.
  - exists st'. split; [exact Hs|split; [exact Hc|]].
    rewrite (Hname (chars "[download] ")
               (chars " /home/u/My Video.mp4" ++ [nl]) eq_refl);
      vm_compute; reflexivity.
Defined.

(** C5 as stated fails where the path of the file announced holds the word
    [Destination:] again: the scanner takes what stands between the first
    two occurrences for the file. *)
Lemma playlist_step_destination_counterexample :
  ~ (forall st file,
       exists st',
         step st (chars "[download] Destination: " ++ file) = Ok st'
         /\ completed st' = Int 0
         /\ description st'
            = let name := posix_name (strip file) in
              if (40 <? length name)%nat then take 37 name ++ chars "..."
              else name).
Proof.
  intros H.
  destruct (H start (chars "/home/u/Destination: Mars/01_a.mp4"))
    as (st' & Hs & _ & Hd).
  vm_compute in Hs. injection Hs as <-. vm_compute in Hd. discriminate Hd.
Qed.

Example destination_twice :
  step start
    (chars "[download] Destination: /home/u/Destination: Mars/01_a.mp4")
  = Ok {| current_file := chars "u";
          description := chars "u";
          completed := Int 0 |}
  /\ posix_name (chars "/home/u/Destination: Mars/01_a.mp4")
     = chars "01_a.mp4".
Proof. split; vm_compute; reflexivity. Qed.

Lemma percent_line_updates_witness :
  step1 start1 (chars "[download]  57.3" ++ "%"%char :: chars " of 10.00MiB")
  = {| all_output := [chars "[download]  57.3% of 10.00MiB"];
       single_completed := Float (573 # 10) |}
  /\ step start (chars "[download]  57.3" ++ "%"%char :: chars " of 10.00MiB")
     = Ok {| current_file := chars "Downloading...";
             description := chars "Downloading...";
             completed := Float (573 # 10) |}.
Proof.
  destruct (percent_line_updates Q float_decimal posix_name
              (chars "[download]  57.3") (chars " of 10.00MiB"))
    as [Hsingle Hplaylist].
  - repeat constructor.
  - vm_compute. reflexivity.
  - split.
    + unfold step1. rewrite Hsingle. vm_compute. reflexivity.
    + unfold step. rewrite Hplaylist; vm_compute; reflexivity.
Defined.

(** C6 as stated fails on the playlist scanner: a destination announcement
    whose file name holds a percent sign has the marker and a percent sign,
    and the last field before the sign is a float, but the line is taken as
    an announcement and the percentage is put to 0. *)
Lemma percent_line_destination_counterexample :
  ~ (forall st before rest token f,
       Forall (fun c => Ascii.eqb c "%" = false) before ->
       contains (chars "[download]") (before ++ "%"%char :: rest) = true ->
       last (split_ws before) = Some token ->
       float_decimal token = Some f ->
       exists st',
         step st (before ++ "%"%char :: rest) = Ok st'
         /\ completed st' = Float f).
Proof.
  intros H.
  destruct (H start (chars "[download] Destination: 50") (chars " off.mp4")
              (chars "50") (inject_Z 50)) as (st' & Hs & Hc).
  - repeat constructor.
  - vm_compute. reflexivity.
  - vm_compute. reflexivity.
  - vm_compute. reflexivity.
  - vm_compute in Hs. injection Hs as <-. discriminate Hc.
Qed.

Example destination_with_percent :
  step start (chars "[download] Destination: 50% off.mp4")
  = Ok {| current_file := chars "50% off.mp4";
          description := chars "50% off.mp4";
          completed := Int 0 |}.
Proof. vm_compute. reflexivity. Qed.

Lemma playlist_step_complete_witness :
  step start (chars "[download] video.mp4 has already been downloaded" ++ [nl])
  = Ok {| current_file := chars "Downloading...";
          description := chars "Downloading...";
          completed := Int 100 |}.
Proof.
  apply (playlist_step_complete Q float_decimal posix_name start).
  - vm_compute. reflexivity.
  - vm_compute. reflexivity.
  - left. vm_compute. reflexivity.
Defined.

(** C7 as stated fails on both scanners.  In the playlist scanner a line
    that says the file has already been downloaded, and that has the
    download marker and a percent sign, goes to the percentage rule.  The
    single-video scanner has the percentage rule only. *)
Lemma playlist_step_complete_counterexample :
  ~ (forall st line,
       contains (chars "has already been downloaded") line = true
       \/ contains (chars "100%") line = true ->
       exists st',
         step st line = Ok st'
         /\ (number_value (completed st') == 100)%Q)
  /\ ~ (forall st line,
          contains (chars "has already been downloaded") line = true
          \/ contains (chars "100%") line = true ->
          (number_value (single_completed (step1 st line)) == 100)%Q).
Proof.
  split; intros H.
  - destruct (H start
                (chars "[download] 50% off.mp4 has already been downloaded"))
      as (st' & Hs & Hc).
    + left. vm_compute. reflexivity.
    + vm_compute in Hs. injection Hs as <-. vm_compute in Hc.
      discriminate Hc.
  - assert (Hc := H start1
                    (chars "[download] video.mp4 has already been downloaded")
                    (or_introl eq_refl)).
    vm_compute in Hc. discriminate Hc.
Qed.

Example already_downloaded_with_percent :
  step start (chars "[download] 50% off.mp4 has already been downloaded")
  = Ok {| current_file := chars "Downloading...";
          description := chars "Downloading...";
          completed := Float (50 # 1) |}.
Proof. vm_compute. reflexivity. Qed.

(** The single-video scanner has no rule for such a line at all. *)
Example single_step_already_downloaded :
  step1 start1 (chars "[download] video.mp4 has already been downloaded")
  = {| all_output := [chars "[download] video.mp4 has already been downloaded"];
       single_completed := Int 0 |}.
Proof. vm_compute. reflexivity. Qed.

End ScannerRuns.

(** ** After a failed download *)

Section Diagnostics.

Variable markup_error : str -> option str.
Variable F : Type.
Variable float : str -> option F.
Variable path_name : str -> str.

(** [download_single_video]: the lines chosen are those that hold [error]
    in any case, or the last ten lines when there is none. *)
Lemma error_lines_spec (lines : list str) :
  let matching :=
    filter (fun l => contains (chars "ERROR") (upper l) = true
                     ∨ contains (chars "error") l = true) lines in
  (matching <> [] -> error_lines lines = matching)
  /\ (matching = [] -> error_lines lines = last_n 10 lines).
Proof.
  unfold error_lines. simpl.
  destruct (filter _ lines); split; intros H; congruence.
Qed.

Lemma print_accepted text printed :
  markup_error text = None ->
  print markup_error text printed = (printed ++ [text], Ok tt).
Proof. intros H. unfold print. rewrite H. reflexivity. Qed.

Lemma print_rejected text message printed :
  markup_error text = Some message ->
  print markup_error text printed = (printed, Raise (MarkupError message)).
Proof. intros H. unfold print. rewrite H. reflexivity. Qed.

(** Texts that rich accepts are printed one after the other. *)
Lemma for_each_print {A} (text : A -> str) xs printed :
  Forall (fun x => markup_error (text x) = None) xs ->
  for_each (fun x => print markup_error (text x)) xs printed
  = (printed ++ map text xs, Ok tt).
Proof.
  intros H. revert printed.
  induction H as [|x xs Hx _ IH]; intros printed; cbn [for_each map].
  - rewrite app_nil_r. reflexivity.
  - unfold mbind, io_bind. rewrite (print_accepted _ _ Hx).
    unfold mbind, io_bind in IH. rewrite IH, <- app_assoc. reflexivity.
Qed.

(** When rich accepts what is printed, a failed [download_single_video]
    prints its heading, the lines chosen and the failure, and returns
    [False]. *)
Lemma download_single_video_failure lines returncode :
  returncode <> 0 ->
  let shown :=
    map (fun line => chars "[red]" ++ strip line ++ chars "[/red]")
      (last_n 5 (error_lines lines)) in
  let failure :=
    chars "[bold red]Error: Download failed with code "
    ++ str_of_int returncode ++ chars "[/bold red]" in
  markup_error (nl :: chars "[bold red]yt-dlp error:[/bold red]") = None ->
  Forall (fun text => markup_error text = None) shown ->
  markup_error failure = None ->
  download_single_video markup_error float lines returncode
  = {| returned := Ok false;
       console :=
         [nl :: chars "[bold red]yt-dlp error:[/bold red]"]
         ++ shown ++ [failure] |}.
Proof.
  intros H shown failure Hhead Hshown Hfail.
  unfold download_single_video, download_single_video_end.
  rewrite single_scan_lines_all_output.
  destruct (returncode =? 0) eqn:E; [apply Z.eqb_eq in E; contradiction|].
  unfold run, try_except, mbind, io_bind.
  rewrite (print_accepted _ _ Hhead). cbv beta iota.
  rewrite (for_each_print
             (fun line => chars "[red]" ++ strip line ++ chars "[/red]"))
    by (apply Forall_map in Hshown; exact Hshown).
  unfold raise. cbv beta iota. cbn [str_of_exn].
  rewrite (print_accepted _ _ Hfail). cbv beta iota.
  unfold mret, io_ret. rewrite <- !app_assoc. reflexivity.
Qed.

Lemma playlist_scan_lines_total st lines :
  exists st', playlist_scan_lines F float path_name st lines = Ok st'.
Proof.
  revert st. induction lines as [|l lines IH]; intros st; simpl.
  - exists st. reflexivity.
  - destruct (playlist_step_total F float path_name st l) as [st1 ->].
    simpl. apply IH.
Qed.

(** [download_playlist]: what it returns and prints does not depend on the
    lines it has read. *)
Lemma download_playlist_forgets_lines lines message returncode :
  download_playlist markup_error float path_name
    {| decoded := lines; broken := message |} returncode
  = download_playlist markup_error float path_name
      {| decoded := []; broken := message |} returncode.
Proof.
  unfold download_playlist, playlist_run. cbn [decoded broken].
  destruct (playlist_scan_lines_total (playlist_start F) lines) as [st ->].
  cbn [playlist_scan_lines mbind result_bind].
  destruct message; reflexivity.
Qed.

End Diagnostics.

(** C8, at a run of yt-dlp that ends with status 1 after an [ERROR] line.
    The single-video call prints the line; the playlist call has kept no
    line and prints the status only. *)
Theorem download_playlist_prints_no_diagnostics :
  let lines := [chars "[youtube] Extracting URL" ++ [nl];
                chars "ERROR: Video unavailable" ++ [nl]] in
  download_single_video markup_closed float_decimal lines 1
  = {| returned := Ok false;
       console := [nl :: chars "[bold red]yt-dlp error:[/bold red]";
                   chars "[red]ERROR: Video unavailable[/red]";
                   chars "[bold red]Error: Download failed with code 1[/bold red]"] |}
  /\ download_playlist markup_closed float_decimal posix_name (whole lines) 1
     = {| returned := Ok false;
          console := [chars "[red]Download failed with code 1[/red]"] |}.
Proof. split; vm_compute; reflexivity. Qed.

(** ** The configuration store *)

Section ConfigStore.




(** C9, at a [config.json] that holds the one byte 255, which is not UTF-8
    and so not valid JSON.  [Config()] leaves the file as it is; reading it
    raises a [UnicodeDecodeError], which the handler of [_read_config], made
    for [JSONDecodeError] and [FileNotFoundError], does not catch: the two
    getters raise it instead of returning the defaults, and
    [set_last_quality] raises it too. *)
Theorem config_undecodable_raises :
  let message :=
    chars "'utf-8' codec can't decode byte 0xff in position 0: invalid start byte" in
  let home := MkPath (chars "/home/u/Downloads/YouTube") in
  let self := Config_init (Undecodable message) home in
  config_file self = Undecodable message
  /\ get_last_quality self = Raise (UnicodeDecodeError message)
  /\ get_download_dir self = Raise (UnicodeDecodeError message)
  /\ set_last_quality self (chars "1080") = Raise (UnicodeDecodeError message).
Proof. repeat split. Qed.

End ConfigStore.

(** * Further properties *)

(** ** [int] and [str] *)

Section IntStr.

Lemma is_digit_not_sign c :
  is_digit c = true -> Ascii.eqb c "+" = false /\ Ascii.eqb c "-" = false.
Proof.
  destruct c as [[] [] [] [] [] [] [] []];
    (discriminate || (intros _; split; reflexivity)).
Qed.

Lemma is_digit_lower c : is_digit c = true -> lower_char c = c.
Proof.
  destruct c as [[] [] [] [] [] [] [] []]; (reflexivity || discriminate).
Qed.

Lemma is_digit_not_comma c : is_digit c = true -> Ascii.eqb c "," = false.
Proof.
  destruct c as [[] [] [] [] [] [] [] []]; (reflexivity || discriminate).
Qed.

Lemma digits_of_digits d : Forall (fun c => is_digit c = true) (digits_of d).
Proof.
  unfold digits_of.
  induction d; simpl; constructor; (reflexivity || assumption).
Qed.

Lemma int_digits_acc d a :
  int_digits (Z.pos a) (digits_of d) = Some (Z.pos (Pos.of_uint_acc d a)).
Proof.
  unfold digits_of. revert a.
  induction d as [|d IH|d IH|d IH|d IH|d IH|d IH|d IH|d IH|d IH|d IH];
    intros a; [reflexivity|..];
    cbn [NilEmpty.string_of_uint chars list_ascii_of_string int_digits
         Pos.of_uint_acc];
    (match goal with
     | |- context [is_digit ?c] =>
         change (is_digit c) with true; cbv iota;
         let v := eval vm_compute in (digit_val c) in
         change (digit_val c) with v
     end);
    (match goal with
     | |- int_digits ?x _ = Some (Z.pos (Pos.of_uint_acc _ ?b)) =>
         replace x with (Z.pos b) by lia; apply IH
     end).
Qed.

Lemma int_digits_zero d :
  int_digits 0 (digits_of d) = Some (Z.of_N (Pos.of_uint d)).
Proof.
  induction d as [|d IH|d IH|d IH|d IH|d IH|d IH|d IH|d IH|d IH|d IH];
    [reflexivity|exact IH|..];
    exact (int_digits_acc d _).
Qed.

Lemma int_unsigned_digits d :
  d <> Decimal.Nil ->
  int_unsigned (digits_of d) = Some (Z.of_N (Pos.of_uint d)).
Proof.
  intros Hd. rewrite <- int_digits_zero.
  destruct d; [congruence|..]; reflexivity.
Qed.

Lemma str_of_int_pos p :
  str_of_int (Z.pos p) = digits_of (Pos.to_uint p).
Proof.
  unfold str_of_int, digits_of. simpl.
  pose proof (DecimalPos.Unsigned.to_uint_nonnil p) as H.
  destruct (Pos.to_uint p); [congruence|..]; reflexivity.
Qed.

Lemma int_unsigned_pos p : int_unsigned (str_of_int (Z.pos p)) = Some (Z.pos p).
Proof.
  rewrite str_of_int_pos, int_unsigned_digits
    by apply DecimalPos.Unsigned.to_uint_nonnil.
  rewrite DecimalPos.Unsigned.of_to. reflexivity.
Qed.

Lemma str_of_int_pos_digits p :
  Forall (fun c => is_digit c = true) (str_of_int (Z.pos p))
  /\ str_of_int (Z.pos p) <> [].
Proof.
  rewrite str_of_int_pos. split; [apply digits_of_digits|].
  pose proof (DecimalPos.Unsigned.to_uint_nonnil p) as H.
  unfold digits_of. destruct (Pos.to_uint p); [congruence|..]; discriminate.
Qed.

Lemma is_digit_not_space_int c : is_digit c = true -> is_space_int c = false.
Proof.
  destruct c as [[] [] [] [] [] [] [] []]; (reflexivity || discriminate).
Qed.

Lemma strip_int_digits s :
  Forall (fun c => is_digit c = true) s -> rstrip_int (lstrip_int s) = s.
Proof.
  intros H.
  assert (lstrip_int s = s) as ->.
  { destruct H as [|c s Hc _]; simpl; [reflexivity|].
    rewrite (is_digit_not_space_int c Hc). reflexivity. }
  induction H as [|c s Hc _ IH]; simpl; [reflexivity|].
  rewrite IH, (is_digit_not_space_int c Hc). destruct s; reflexivity.
Qed.

(** [int(str(n)) == n] for a positive [n]. *)
Lemma int_str_of_int_pos p : int (str_of_int (Z.pos p)) = Ok (Z.pos p).
Proof.
  destruct (str_of_int_pos_digits p) as [Hd Hne].
  unfold int.
  rewrite (strip_int_digits _ Hd).
  pose proof (int_unsigned_pos p) as Hu.
  destruct (str_of_int (Z.pos p)) as [|c r] eqn:E; [congruence|].
  assert (Hc : is_digit c = true) by (inversion Hd; assumption).
  destruct (is_digit_not_sign c Hc) as [-> ->].
  rewrite Hu. reflexivity.
Qed.

End IntStr.

(** ** The selection parser: what a selection denotes *)

Section SelectionMeaning.

Variable total_videos : Z.

Lemma for_parts_spec parts X Y :
  for_parts total_videos X parts = Ok Y ->
  exists S,
    Y = X ∪ S /\ in_bounds total_videos S
    /\ forall X', for_parts total_videos X' parts = Ok (X' ∪ S).
Proof.
  revert X Y. induction parts as [|p parts IH]; simpl; intros X Y H.
  - injection H as <-. exists ∅. split; [|split].
    + apply set_eq. intros i. rewrite elem_of_union, elem_of_empty. tauto.
    + intros i Hi. apply not_elem_of_empty in Hi. destruct Hi.
    + intros X'. f_equal. apply set_eq. intros i.
      rewrite elem_of_union, elem_of_empty. tauto.
  - destruct (term_spec total_videos p) as [[e He]|[Sp [Hp Hb]]].
    + rewrite He in H. discriminate.
    + rewrite Hp in H. simpl in H.
      destruct (IH _ _ H) as (S & -> & HbS & HS).
      exists (Sp ∪ S). split; [|split].
      * apply set_eq. intros i. rewrite !elem_of_union. tauto.
      * intros i Hi. apply elem_of_union in Hi as [Hi|Hi]; auto.
      * intros X'. rewrite Hp. simpl. rewrite HS. f_equal.
        apply set_eq. intros i. rewrite !elem_of_union. tauto.
Qed.

Lemma for_parts_app l1 l2 X :
  for_parts total_videos X (l1 ++ l2)
  = for_parts total_videos X l1 ≫= fun Y => for_parts total_videos Y l2.
Proof.
  revert X. induction l1 as [|p l1 IH]; intros X; simpl; [reflexivity|].
  destruct (term total_videos X p) as [X'|e]; simpl; [apply IH|reflexivity].
Qed.

(** A term that is accepted selects a position at least. *)
Lemma term_adds X part Y :
  term total_videos X part = Ok Y -> exists i, i ∈ Y.
Proof.
  unfold term.
  destruct (contains (chars "-") (strip part)).
  - unfold range_term.
    destruct (split_char "-" (strip part)) as [|a [|b [|c l]]];
      try discriminate.
    destruct (int (strip a)) as [start_idx|e]; [|discriminate].
    destruct (int (strip b)) as [end_idx|e]; [|discriminate].
    simpl.
    destruct ((start_idx <? 1) || (end_idx >? total_videos)
              || (start_idx >? end_idx)) eqn:Hc; [discriminate|].
    intros [= <-]. exists start_idx.
    apply orb_false_elim in Hc as [Hc H3].
    rewrite Z.gtb_ltb in H3. apply Z.ltb_ge in H3.
    apply elem_of_union. right.
    apply elem_of_list_to_set, elem_of_seqZ. lia.
  - unfold single_term.
    destruct (int (strip part)) as [idx|e]; [|discriminate].
    simpl.
    destruct ((idx <? 1) || (idx >? total_videos)); [discriminate|].
    intros [= <-]. exists idx.
    apply elem_of_union. right. apply elem_of_singleton. reflexivity.
Qed.

Lemma for_parts_adds parts X Y :
  parts <> [] -> for_parts total_videos X parts = Ok Y -> exists i, i ∈ Y.
Proof.
  destruct parts as [|p parts]; [congruence|]. intros _. simpl.
  destruct (term total_videos X p) as [X'|e] eqn:E; simpl; [|discriminate].
  intros H. destruct (term_adds _ _ _ E) as [i Hi].
  destruct (for_parts_spec _ _ _ H) as (S & -> & _).
  exists i. apply elem_of_union. left. exact Hi.
Qed.

End SelectionMeaning.

Section SortedSets.

Lemma StronglySorted_lt_le (l : list Z) :
  StronglySorted Z.lt l -> StronglySorted Z.le l.
Proof.
  induction 1 as [|x l Hs IH Hx]; constructor; [exact IH|].
  eapply Forall_impl; [exact Hx|]. intros y Hy. simpl in Hy. lia.
Qed.

Lemma StronglySorted_lt_NoDup (l : list Z) :
  StronglySorted Z.lt l -> NoDup l.
Proof.
  induction 1 as [|x l Hs IH Hx]; constructor; [|exact IH].
  intros Hin. rewrite Forall_forall in Hx. specialize (Hx x Hin). lia.
Qed.

(** [sorted(list(set(l)))] is [l] for a strictly ascending [l]. *)
Lemma sorted_of_sorted (l : list Z) :
  StronglySorted Z.lt l ->
  merge_sort Z.le (elements (list_to_set l : gset Z)) = l.
Proof.
  intros H.
  apply (StronglySorted_unique Z.le).
  - apply StronglySorted_merge_sort; apply _.
  - apply StronglySorted_lt_le, H.
  - rewrite merge_sort_Permutation.
    apply elements_list_to_set, StronglySorted_lt_NoDup, H.
Qed.

Lemma seqZ_sorted (a n : Z) : StronglySorted Z.lt (seqZ a n).
Proof.
  unfold seqZ. generalize 0%nat as k.
  induction (Z.to_nat n) as [|m IH]; intros k; simpl; constructor.
  - apply IH.
  - apply Forall_forall. intros y Hy.
    apply list_elem_of_fmap in Hy as [i [-> Hi]].
    apply list_elem_of_In, in_seq in Hi. lia.
Qed.

End SortedSets.

Section SelectionRoundTrip.

Lemma lower_strip_plain s :
  Forall (fun c => is_space c = false) s ->
  Forall (fun c => lower_char c = c) s ->
  lower (strip s) = s.
Proof.
  intros Hs Hl. rewrite (strip_no_space s Hs). unfold lower.
  induction Hl as [|c s Hc _ IH]; simpl; [reflexivity|].
  inversion Hs; subst. rewrite Hc, IH by assumption. reflexivity.
Qed.

Lemma Forall_join (P : ascii -> Prop) sep pieces :
  P sep -> Forall (Forall P) pieces -> Forall P (join sep pieces).
Proof.
  intros Hsep H. induction H as [|x l Hx _ IH]; [constructor|].
  destruct l as [|y l]; [exact Hx|].
  change (join sep (x :: y :: l)) with (x ++ sep :: join sep (y :: l)).
  apply Forall_app. split; [exact Hx|]. constructor; [exact Hsep|exact IH].
Qed.

Lemma numeral_no_hyphen s :
  Forall (fun c => is_digit c = true) s -> contains (chars "-") s = false.
Proof.
  induction 1 as [|c s Hc _ IH]; [reflexivity|].
  change (contains (chars "-") (c :: s))
    with (Ascii.eqb "-" c && true || contains (chars "-") s).
  rewrite IH. destruct (is_digit_not_sign c Hc) as [_ Hm].
  rewrite Ascii.eqb_sym, Hm. reflexivity.
Qed.

Lemma numeral_plain s :
  Forall (fun c => is_digit c = true) s ->
  Forall (fun c => is_space c = false) s
  /\ Forall (fun c => lower_char c = c) s
  /\ Forall (fun c => Ascii.eqb c "," = false) s
  /\ Forall (fun c => Ascii.eqb c "-" = false) s.
Proof.
  intros H. repeat split; (eapply Forall_impl; [exact H|]); intros c Hc.
  - apply is_digit_not_space, Hc.
  - apply is_digit_lower, Hc.
  - apply is_digit_not_comma, Hc.
  - apply is_digit_not_sign, Hc.
Qed.

(** A position within the bounds, written by [str], is accepted as a term
    and adds itself. *)
Lemma term_str_of_int total_videos X i :
  1 <= i <= total_videos ->
  term total_videos X (str_of_int i) = Ok (X ∪ {[ i ]}).
Proof.
  intros Hi. destruct i as [|p|p]; try lia.
  destruct (str_of_int_pos_digits p) as [Hd _].
  destruct (numeral_plain _ Hd) as (Hs & _).
  unfold term. rewrite (strip_no_space _ Hs), (numeral_no_hyphen _ Hd).
  unfold single_term. rewrite int_str_of_int_pos. simpl.
  assert ((Z.pos p <? 1) || (Z.pos p >? total_videos) = false) as ->.
  { rewrite Z.gtb_ltb. apply orb_false_iff.
    split; apply Z.ltb_ge; lia. }
  reflexivity.
Qed.

Lemma for_parts_str_of_int total_videos X l :
  Forall (fun i => 1 <= i <= total_videos) l ->
  for_parts total_videos X (map str_of_int l) = Ok (X ∪ list_to_set l).
Proof.
  intros H. revert X. induction H as [|i l Hi _ IH]; intros X; simpl.
  - f_equal. apply set_eq. intros j. rewrite elem_of_union, elem_of_empty.
    tauto.
  - rewrite (term_str_of_int _ _ _ Hi). simpl. rewrite IH. f_equal.
    apply set_eq. intros j. rewrite !elem_of_union. tauto.
Qed.

Lemma parse_result_shape selection total_videos r :
  parse_video_selection selection total_videos = Ok r ->
  StronglySorted Z.lt r /\ Forall (fun i => 1 <= i <= total_videos) r.
Proof.
  unfold parse_video_selection. case_bool_decide as Hall.
  - intros [= <-]. unfold range. split; [apply seqZ_sorted|].
    apply Forall_forall. intros i Hi. apply elem_of_seqZ in Hi. lia.
  - destruct (for_parts _ _ _) as [Y|e] eqn:E; simpl; [|discriminate].
    intros [= <-]. destruct (sorted_elements Y) as [Hs [_ Hin]].
    split; [exact Hs|].
    apply Forall_forall. intros i Hi. apply Hin in Hi.
    destruct (for_parts_spec _ _ _ _ E) as (S & -> & Hb & _).
    apply elem_of_union in Hi as [Hi|Hi]; [|exact (Hb i Hi)].
    apply not_elem_of_empty in Hi. destruct Hi.
Qed.

Lemma parse_playlist_items total_videos l :
  l <> [] -> StronglySorted Z.lt l ->
  Forall (fun i => 1 <= i <= total_videos) l ->
  parse_video_selection (playlist_items l) total_videos = Ok l.
Proof.
  intros Hne Hs Hb.
  assert (Hd : Forall (fun s => Forall (fun c => is_digit c = true) s)
                 (map str_of_int l)).
  { apply Forall_forall. intros s Hin.
    apply list_elem_of_In, in_map_iff in Hin as [i [<- Hi]].
    apply list_elem_of_In in Hi.
    rewrite Forall_forall in Hb. specialize (Hb i Hi).
    destruct i as [|p|p]; try lia. apply str_of_int_pos_digits. }
  assert (Hplain : lower (strip (playlist_items l)) = playlist_items l).
  { apply lower_strip_plain; apply Forall_join; try reflexivity;
      (eapply Forall_impl; [exact Hd|]); intros s Hs'; apply numeral_plain, Hs'. }
  assert (Hnot : playlist_items l <> chars "all").
  { unfold playlist_items. destruct l as [|i l]; [congruence|].
    inversion Hb as [|? ? Hi _]; subst.
    destruct i as [|p|p]; try lia.
    destruct (str_of_int_pos_digits p) as [Hdp Hnep].
    simpl map. destruct (str_of_int (Z.pos p)) as [|c r] eqn:E; [congruence|].
    assert (Hc : is_digit c = true) by (inversion Hdp; assumption).
    intros Heq.
    assert (c = "a"%char) as ->
      by (destruct (map str_of_int l); simpl in Heq; congruence).
    discriminate Hc. }
  unfold parse_video_selection. rewrite Hplain.
  rewrite bool_decide_eq_false_2 by exact Hnot.
  unfold playlist_items. rewrite split_char_join.
  - rewrite (for_parts_str_of_int _ _ _ Hb). simpl. f_equal.
    replace (∅ ∪ list_to_set l) with (list_to_set l : gset Z).
    + apply sorted_of_sorted, Hs.
    + apply set_eq. intros j. rewrite elem_of_union, elem_of_empty. tauto.
  - destruct l; [congruence|discriminate].
  - eapply Forall_impl; [exact Hd|]. intros s Hs'. apply numeral_plain, Hs'.
Qed.

(** X1. The argument of [--playlist-items] that [download_playlist] builds
    from the list a selection was parsed to reads back, as a selection, as
    the same list. *)
Theorem playlist_items_round_trip selection total_videos r :
  parse_video_selection selection total_videos = Ok r -> r <> [] ->
  parse_video_selection (playlist_items r) total_videos = Ok r.
Proof.
  intros H Hne. destruct (parse_result_shape _ _ _ H) as [Hs Hb].
  apply parse_playlist_items; assumption.
Qed.

Lemma playlist_items_round_trip_witness :
  playlist_items [1; 2; 3; 7] = chars "1,2,3,7"
  /\ parse_video_selection (chars "1,2,3,7") 12 = Ok [1; 2; 3; 7].
Proof.
  split; [vm_compute; reflexivity|].
  change (chars "1,2,3,7") with (playlist_items [1; 2; 3; 7]).
  apply (playlist_items_round_trip (chars "7, 1-3") 12).
  - vm_compute. reflexivity.
  - discriminate.
Defined.

End SelectionRoundTrip.

Section SelectionDenotation.

Lemma split_char_app_any sep a b :
  split_char sep (a ++ sep :: b) = split_char sep a ++ split_char sep b.
Proof.
  induction a as [|c a IH]; simpl.
  - rewrite Ascii.eqb_refl. reflexivity.
  - rewrite IH. destruct (Ascii.eqb c sep); [reflexivity|].
    pose proof (split_char_not_nil sep a) as Hne.
    destruct (split_char sep a); [congruence|reflexivity].
Qed.

Lemma parse_not_all selection total_videos :
  lower (strip selection) <> chars "all" ->
  parse_video_selection selection total_videos
  = for_parts total_videos ∅
      (map (fun t => strip (lower t)) (split_char "," selection))
    ≫= fun indices => Ok (merge_sort Z.le (elements indices)).
Proof.
  intros H. unfold parse_video_selection.
  rewrite bool_decide_eq_false_2 by exact H.
  rewrite for_parts_typed. reflexivity.
Qed.

(** X2. A range [a-b] within the bounds, written with [str], selects the
    positions from [a] to [b], all of them and no other. *)
Theorem parse_video_selection_range total_videos a b :
  1 <= a -> a <= b -> b <= total_videos ->
  parse_video_selection (str_of_int a ++ "-"%char :: str_of_int b)
    total_videos
  = Ok (seqZ a (b - a + 1)).
Proof.
  intros Ha Hab Hb.
  destruct a as [|pa|pa]; try lia. destruct b as [|pb|pb]; try lia.
  destruct (str_of_int_pos_digits pa) as [Hda _].
  destruct (str_of_int_pos_digits pb) as [Hdb _].
  destruct (numeral_plain _ Hda) as (Hsa & Hla & Hca & Hha).
  destruct (numeral_plain _ Hdb) as (Hsb & Hlb & Hcb & Hhb).
  set (s := str_of_int (Z.pos pa) ++ "-"%char :: str_of_int (Z.pos pb)).
  assert (Hs : Forall (fun c => is_space c = false) s)
    by (apply Forall_app; split; [|constructor]; auto).
  assert (Hplain : lower (strip s) = s).
  { apply lower_strip_plain; [exact Hs|].
    apply Forall_app; split; [|constructor]; auto. }
  assert (Hnot : s <> chars "all").
  { unfold s. destruct (str_of_int (Z.pos pa)) as [|c r] eqn:E.
    - discriminate.
    - assert (Hc : is_digit c = true) by (inversion Hda; assumption).
      intros Heq. assert (c = "a"%char) as -> by (simpl in Heq; congruence).
      discriminate Hc. }
  unfold parse_video_selection. rewrite Hplain.
  rewrite bool_decide_eq_false_2 by exact Hnot.
  rewrite (split_char_absent "," s)
    by (apply Forall_app; split; [|constructor]; auto).
  simpl for_parts. unfold term. rewrite (strip_no_space s Hs).
  assert (contains (chars "-") s = true) as ->
    by apply (contains_char_app "-").
  unfold range_term. unfold s at 1.
  rewrite (split_char_app "-" _ _ Hha), (split_char_absent "-" _ Hhb).
  rewrite (strip_no_space _ Hsa), (strip_no_space _ Hsb).
  rewrite !int_str_of_int_pos. simpl.
  assert ((Z.pos pa <? 1) || (Z.pos pb >? total_videos)
          || (Z.pos pa >? Z.pos pb) = false) as ->.
  { rewrite !Z.gtb_ltb. rewrite !orb_false_iff.
    repeat split; apply Z.ltb_ge; lia. }
  simpl. f_equal. unfold range.
  replace (Z.pos pb + 1 - Z.pos pa) with (Z.pos pb - Z.pos pa + 1) by lia.
  replace (∅ ∪ list_to_set (seqZ (Z.pos pa) (Z.pos pb - Z.pos pa + 1)))
    with (list_to_set (seqZ (Z.pos pa) (Z.pos pb - Z.pos pa + 1)) : gset Z).
  - apply sorted_of_sorted, seqZ_sorted.
  - apply set_eq. intros j. rewrite elem_of_union, elem_of_empty. tauto.
Qed.

Lemma parse_video_selection_range_witness :
  parse_video_selection (chars "3-6") 10 = Ok [3; 4; 5; 6].
Proof.
  apply (parse_video_selection_range 10 3 6); lia.
Defined.

(** X3. The parser returns the empty list on the word [all] for a count
    below 1 only: a selection that is accepted term by term is never empty,
    and with a count below 1 nothing but [all] is accepted. *)
Theorem parse_video_selection_empty selection total_videos r :
  parse_video_selection selection total_videos = Ok r ->
  (r = [] \/ total_videos <= 0) ->
  lower (strip selection) = chars "all" /\ total_videos <= 0 /\ r = [].
Proof.
  intros H Hcase.
  destruct (parse_result_shape _ _ _ H) as [_ Hb].
  unfold parse_video_selection in H.
  case_bool_decide as Hall.
  - injection H as <-. split; [exact Hall|].
    unfold range in *. replace (total_videos + 1 - 1) with total_videos in *
      by lia.
    destruct Hcase as [He|Hle].
    + split; [|exact He].
      destruct (Z.le_gt_cases total_videos 0) as [|Hpos]; [assumption|].
      assert (Hin : 1 ∈ seqZ 1 total_videos) by (apply elem_of_seqZ; lia).
      rewrite He in Hin. apply elem_of_nil in Hin. destruct Hin.
    + split; [exact Hle|].
      unfold seqZ. replace (Z.to_nat total_videos) with 0%nat by lia.
      reflexivity.
  - exfalso.
    destruct (for_parts _ _ _) as [Y|e] eqn:E; simpl in H; [|discriminate].
    injection H as <-.
    destruct (for_parts_adds _ _ _ _ (split_char_not_nil _ _) E) as [i Hi].
    destruct (sorted_elements Y) as (_ & _ & Hin).
    apply Hin in Hi.
    destruct Hcase as [He|Hle].
    + rewrite He in Hi. apply elem_of_nil in Hi. exact Hi.
    + rewrite Forall_forall in Hb. specialize (Hb i Hi). lia.
Qed.

Lemma parse_video_selection_empty_witness :
  parse_video_selection (chars "ALL") 0 = Ok []
  /\ lower (strip (chars "ALL")) = chars "all".
Proof.
  assert (H : parse_video_selection (chars "ALL") 0 = Ok [])
    by (vm_compute; reflexivity).
  split; [exact H|].
  exact (proj1 (parse_video_selection_empty _ _ _ H (or_introl eq_refl))).
Defined.

(** X4. Two selections joined by a comma select the union of what each
    selects, when neither is the word [all]. *)
Theorem parse_video_selection_union total_videos a b ra rb :
  lower (strip a) <> chars "all" -> lower (strip b) <> chars "all" ->
  parse_video_selection a total_videos = Ok ra ->
  parse_video_selection b total_videos = Ok rb ->
  exists r,
    parse_video_selection (a ++ ","%char :: b) total_videos = Ok r
    /\ forall i, i ∈ r <-> i ∈ ra \/ i ∈ rb.
Proof.
  intros Ha Hb Hra Hrb.
  rewrite (parse_not_all _ _ Ha) in Hra. rewrite (parse_not_all _ _ Hb) in Hrb.
  destruct (for_parts _ _ (map _ (split_char "," a))) as [Ya|e] eqn:Ea;
    simpl in Hra; [|discriminate].
  destruct (for_parts _ _ (map _ (split_char "," b))) as [Yb|e] eqn:Eb;
    simpl in Hrb; [|discriminate].
  injection Hra as <-. injection Hrb as <-.
  destruct (for_parts_spec _ _ _ _ Eb) as (Sb & -> & _ & HSb).
  assert (Hab : lower (strip (a ++ ","%char :: b)) <> chars "all").
  { intros Hall. apply all_literal_single in Hall.
    rewrite split_char_app_any in Hall.
    pose proof (split_char_not_nil "," a). pose proof (split_char_not_nil "," b).
    destruct (split_char "," a) as [|? [|? ?]]; try congruence;
      destruct (split_char "," b); simpl in Hall; congruence. }
  rewrite (parse_not_all _ _ Hab), split_char_app_any, map_app, for_parts_app.
  rewrite Ea. simpl. rewrite HSb. simpl.
  eexists. split; [reflexivity|].
  intros i.
  destruct (sorted_elements (Ya ∪ Sb)) as (_ & _ & ->).
  destruct (sorted_elements Ya) as (_ & _ & ->).
  destruct (sorted_elements (∅ ∪ Sb)) as (_ & _ & ->).
  rewrite !elem_of_union, elem_of_empty. tauto.
Qed.

Lemma parse_video_selection_union_witness :
  exists r,
    parse_video_selection (chars "5-7" ++ ","%char :: chars "2,6") 9 = Ok r
    /\ forall i, i ∈ r <-> i ∈ [5; 6; 7] \/ i ∈ [2; 6].
Proof.
  apply (parse_video_selection_union 9 (chars "5-7") (chars "2,6")).
  - vm_compute. discriminate.
  - vm_compute. discriminate.
  - vm_compute. reflexivity.
  - vm_compute. reflexivity.
Defined.

End SelectionDenotation.

(** ** File names *)

Section FilenameProperties.

Variable cs : str.

Lemma lstrip_chars_head s :
  match lstrip_chars cs s with
  | [] => True
  | c :: _ => in_chars cs c = false
  end.
Proof.
  induction s as [|c s IH]; simpl; [exact I|].
  destruct (in_chars cs c) eqn:E; [exact IH|exact E].
Qed.

Lemma lstrip_chars_clean c s :
  in_chars cs c = false -> lstrip_chars cs (c :: s) = c :: s.
Proof. intros H. simpl. rewrite H. reflexivity. Qed.

Lemma rstrip_chars_cons c s :
  rstrip_chars cs (c :: s)
  = match rstrip_chars cs s with
    | [] => if in_chars cs c then [] else [c]
    | r => c :: r
    end.
Proof. reflexivity. Qed.

Lemma rstrip_chars_keeps_head c s :
  in_chars cs c = false ->
  exists r, rstrip_chars cs (c :: s) = c :: r.
Proof.
  intros H. rewrite rstrip_chars_cons.
  destruct (rstrip_chars cs s) as [|d r].
  - rewrite H. exists []. reflexivity.
  - exists (d :: r). reflexivity.
Qed.

Lemma rstrip_chars_last s :
  match last (rstrip_chars cs s) with
  | None => True
  | Some c => in_chars cs c = false
  end.
Proof.
  induction s as [|c s IH]; [exact I|].
  rewrite rstrip_chars_cons.
  destruct (rstrip_chars cs s) as [|d r].
  - destruct (in_chars cs c) eqn:E; simpl; [exact I|exact E].
  - exact IH.
Qed.

Lemma rstrip_chars_clean s c :
  last s = Some c -> in_chars cs c = false -> rstrip_chars cs s = s.
Proof.
  intros Hl Hc. induction s as [|d s IH]; [discriminate|].
  rewrite rstrip_chars_cons. destruct s as [|e s].
  - simpl in *. injection Hl as ->. rewrite Hc. reflexivity.
  - rewrite IH by exact Hl. reflexivity.
Qed.

Lemma lstrip_chars_Forall (P : ascii -> Prop) s :
  Forall P s -> Forall P (lstrip_chars cs s).
Proof.
  induction 1 as [|c s Hc Hs IH]; simpl; [constructor|].
  destruct (in_chars cs c); [exact IH|constructor; assumption].
Qed.

Lemma rstrip_chars_Forall (P : ascii -> Prop) s :
  Forall P s -> Forall P (rstrip_chars cs s).
Proof.
  induction 1 as [|c s Hc Hs IH]; [constructor|].
  rewrite rstrip_chars_cons. destruct (rstrip_chars cs s) as [|d r].
  - destruct (in_chars cs c); repeat constructor; assumption.
  - constructor; assumption.
Qed.

Lemma lstrip_chars_nil s :
  lstrip_chars cs s = [] <-> Forall (fun c => in_chars cs c = true) s.
Proof.
  induction s as [|c s IH]; simpl.
  - split; [constructor|reflexivity].
  - destruct (in_chars cs c) eqn:E.
    + rewrite IH. split; [intros H; constructor; assumption|].
      intros H. inversion H; assumption.
    + split; [discriminate|]. intros H. inversion H; congruence.
Qed.

Lemma rstrip_chars_nil s :
  rstrip_chars cs s = [] <-> Forall (fun c => in_chars cs c = true) s.
Proof.
  induction s as [|c s IH]; [split; [constructor|reflexivity]|].
  rewrite rstrip_chars_cons. destruct (rstrip_chars cs s) as [|d r].
  - destruct (in_chars cs c) eqn:E.
    + split; [|reflexivity]. intros _. constructor; [exact E|].
      apply IH. reflexivity.
    + split; [discriminate|]. intros H. inversion H; congruence.
  - split; [discriminate|]. intros H. inversion H as [|? ? _ Hs]; subst.
    apply IH in Hs. discriminate.
Qed.

(** [s.strip(cs)] is empty exactly when [s] is made of [cs]. *)
Lemma strip_chars_nil s :
  strip_chars cs s = [] <-> Forall (fun c => in_chars cs c = true) s.
Proof.
  unfold strip_chars. rewrite rstrip_chars_nil. split.
  - intros H. destruct (lstrip_chars cs s) as [|c r] eqn:E.
    + apply lstrip_chars_nil, E.
    + pose proof (lstrip_chars_head s) as Hh. rewrite E in Hh.
      inversion H; congruence.
  - intros H. apply lstrip_chars_nil in H. rewrite H. constructor.
Qed.

(** What [strip] returns has none of [cs] at either end, and [strip] leaves
    such a string as it is. *)
Lemma strip_chars_ends s :
  match strip_chars cs s with
  | [] => True
  | c :: r =>
      in_chars cs c = false
      /\ exists d, last (c :: r) = Some d /\ in_chars cs d = false
  end.
Proof.
  unfold strip_chars. pose proof (lstrip_chars_head s) as Hh.
  destruct (lstrip_chars cs s) as [|c t]; [exact I|].
  destruct (rstrip_chars_keeps_head c t Hh) as [r Hr].
  pose proof (rstrip_chars_last (c :: t)) as Hl. rewrite Hr in *.
  split; [exact Hh|].
  destruct (last (c :: r)) as [d|] eqn:E; [exists d; auto|].
  apply last_None in E. discriminate.
Qed.

Lemma strip_chars_clean s c d :
  head s = Some c -> in_chars cs c = false ->
  last s = Some d -> in_chars cs d = false ->
  strip_chars cs s = s.
Proof.
  intros Hh Hc Hl Hd. unfold strip_chars.
  destruct s as [|c' s]; [discriminate|]. simpl in Hh. injection Hh as ->.
  rewrite (lstrip_chars_clean c s Hc). apply (rstrip_chars_clean _ d Hl Hd).
Qed.

Lemma strip_chars_Forall (P : ascii -> Prop) s :
  Forall P s -> Forall P (strip_chars cs s).
Proof.
  intros H. apply rstrip_chars_Forall, lstrip_chars_Forall, H.
Qed.

End FilenameProperties.

Section SanitizeFilename.

Lemma replace_invalid_valid s :
  Forall (fun c => in_chars invalid_chars c = false) (replace_invalid s).
Proof.
  unfold replace_invalid. apply Forall_forall. intros c Hc.
  apply list_elem_of_In, in_map_iff in Hc as [d [<- _]].
  destruct (in_chars invalid_chars d) eqn:E; [reflexivity|exact E].
Qed.

Lemma replace_invalid_id s :
  Forall (fun c => in_chars invalid_chars c = false) s -> replace_invalid s = s.
Proof.
  unfold replace_invalid.
  induction 1 as [|c s Hc _ IH]; cbn [map]; [reflexivity|].
  rewrite Hc, IH. reflexivity.
Qed.

Lemma dot_space c :
  in_chars (chars ". ") c = true <-> c = "."%char \/ c = " "%char.
Proof.
  unfold in_chars. simpl. rewrite !orb_true_iff, !Ascii.eqb_eq.
  intuition discriminate.
Qed.

Lemma not_dot_space c :
  in_chars (chars ". ") c = false -> c <> "."%char /\ c <> " "%char.
Proof.
  intros H. split; intros ->; discriminate H.
Qed.

Lemma sanitize_filename_unfold s :
  sanitize_filename s
  = let t := strip_chars (chars ". ") (replace_invalid s) in
    if (200 <? length t)%nat then take 200 t else t.
Proof. reflexivity. Qed.

(** X5. What [sanitize_filename] returns holds none of the characters that
    are invalid in a Windows file name, has 200 characters at most, and does
    not begin with a dot or a space. *)
Theorem sanitize_filename_safe filename :
  Forall (fun c => in_chars invalid_chars c = false)
    (sanitize_filename filename)
  /\ (length (sanitize_filename filename) <= 200)%nat
  /\ forall c, head (sanitize_filename filename) = Some c ->
               c <> "."%char /\ c <> " "%char.
Proof.
  rewrite sanitize_filename_unfold. cbv zeta.
  set (t := strip_chars (chars ". ") (replace_invalid filename)).
  assert (Hv : Forall (fun c => in_chars invalid_chars c = false) t)
    by apply strip_chars_Forall, replace_invalid_valid.
  assert (Hh : forall c, head t = Some c -> c <> "."%char /\ c <> " "%char).
  { intros c Hc. pose proof (strip_chars_ends (chars ". ") (replace_invalid filename))
      as He. fold t in He. destruct t as [|c' r]; [discriminate|].
    simpl in Hc. injection Hc as ->. apply not_dot_space, He. }
  destruct (200 <? length t)%nat eqn:E.
  - split; [apply Forall_take, Hv|split].
    + rewrite length_take. lia.
    + intros c Hc. apply Hh. destruct t; [discriminate|exact Hc].
  - apply Nat.ltb_ge in E. repeat split; try assumption; apply Hh; assumption.
Qed.

(** X6. When the name returned is shorter than 200 characters it does not
    end with a dot or a space either, and sanitizing it again changes
    nothing. *)
Theorem sanitize_filename_idempotent filename :
  (length (sanitize_filename filename) < 200)%nat ->
  sanitize_filename (sanitize_filename filename) = sanitize_filename filename
  /\ forall d, last (sanitize_filename filename) = Some d ->
               d <> "."%char /\ d <> " "%char.
Proof.
  rewrite (sanitize_filename_unfold filename). cbv zeta.
  set (t := strip_chars (chars ". ") (replace_invalid filename)).
  destruct (200 <? length t)%nat eqn:E.
  { apply Nat.ltb_lt in E. rewrite length_take. lia. }
  intros Hlen.
  pose proof (strip_chars_ends (chars ". ") (replace_invalid filename)) as He.
  fold t in He.
  assert (Hv : Forall (fun c => in_chars invalid_chars c = false) t)
    by apply strip_chars_Forall, replace_invalid_valid.
  destruct t as [|c r] eqn:Et; [split; [reflexivity|discriminate]|].
  destruct He as [Hc [d [Hd Hdc]]].
  split.
  - rewrite sanitize_filename_unfold. cbv zeta.
    rewrite (replace_invalid_id _ Hv).
    rewrite (strip_chars_clean (chars ". ") (c :: r) c d eq_refl Hc Hd Hdc).
    rewrite E. reflexivity.
  - intros d' Hd'. rewrite Hd in Hd'. injection Hd' as <-.
    apply not_dot_space, Hdc.
Qed.

Lemma sanitize_filename_idempotent_witness :
  sanitize_filename (chars " My: Playlist?. ") = chars "My_ Playlist_"
  /\ sanitize_filename (chars "My_ Playlist_") = chars "My_ Playlist_".
Proof.
  assert (H : sanitize_filename (chars " My: Playlist?. ")
              = chars "My_ Playlist_") by (vm_compute; reflexivity).
  split; [exact H|].
  rewrite <- H.
  apply (sanitize_filename_idempotent (chars " My: Playlist?. ")).
  vm_compute. lia.
Defined.

(** X7. [sanitize_filename] returns the empty name exactly for the names
    made of dots and spaces only: an invalid character becomes an
    underscore, which is kept. *)
Theorem sanitize_filename_empty filename :
  sanitize_filename filename = []
  <-> Forall (fun c => c = "."%char \/ c = " "%char) filename.
Proof.
  rewrite sanitize_filename_unfold. cbv zeta.
  set (t := strip_chars (chars ". ") (replace_invalid filename)).
  assert (Ht : t = [] <-> Forall (fun c => c = "."%char \/ c = " "%char)
                            filename).
  { unfold t. rewrite strip_chars_nil. unfold replace_invalid.
    rewrite Forall_forall, Forall_forall. split.
    - intros H c Hc. apply dot_space.
      assert (Hin : (if in_chars invalid_chars c then "_"%char else c)
                    ∈ map (fun c => if in_chars invalid_chars c
                                    then "_"%char else c) filename).
      { apply list_elem_of_In, in_map_iff. exists c.
        split; [reflexivity|apply list_elem_of_In, Hc]. }
      specialize (H _ Hin).
      destruct (in_chars invalid_chars c); [discriminate H|exact H].
    - intros H c Hc.
      apply list_elem_of_In, in_map_iff in Hc as [d [<- Hd]].
      apply list_elem_of_In in Hd. specialize (H d Hd).
      destruct H as [-> | ->]; reflexivity. }
  destruct (200 <? length t)%nat eqn:E; [|exact Ht].
  apply Nat.ltb_lt in E. split.
  - intros H. apply (f_equal length) in H. rewrite length_take in H.
    change (length (@nil ascii)) with 0%nat in H. lia.
  - intros H. apply Ht in H. rewrite H in E.
    change (length (@nil ascii)) with 0%nat in E. lia.
Qed.

End SanitizeFilename.

(** ** The quality labels *)

Section QualityProperties.

Lemma split_ws_nil s : split_ws s = [] <-> blank s.
Proof.
  induction s as [|c s IH]; [split; [constructor|reflexivity]|].
  simpl. destruct (is_space c) eqn:Hc.
  - rewrite IH. split; [intros H; constructor; assumption|].
    intros H. inversion H; assumption.
  - split; [|intros H; inversion H; congruence].
    destruct s as [|d s]; [discriminate|].
    destruct (is_space d); [discriminate|].
    destruct (split_ws (d :: s)); discriminate.
Qed.

Lemma remove_char_idemp c s : remove_char c (remove_char c s) = remove_char c s.
Proof.
  unfold remove_char. induction s as [|d s IH]; [reflexivity|].
  destruct (decide (d = c)) as [Hd|Hd].
  - rewrite filter_cons_False by (intros H; exact (H Hd)). exact IH.
  - rewrite !filter_cons_True by exact Hd. rewrite IH. reflexivity.
Qed.

(** X8. [build_format_string] fails, with an [IndexError], exactly on the
    qualities that are blank once the letter [p] is taken out, and returns a
    selector on every other; and the [replace('p', '')] the two download
    functions apply before calling it changes nothing. *)
Theorem build_format_string_defined quality :
  (build_format_string quality = Raise IndexError
   <-> blank (remove_char "p" quality))
  /\ ((exists out, build_format_string quality = Ok out)
      <-> ~ blank (remove_char "p" quality))
  /\ build_format_string (remove_char "p" quality)
     = build_format_string quality.
Proof.
  split; [|split].
  - unfold build_format_string. rewrite <- split_ws_nil.
    destruct (split_ws (remove_char "p" quality)); split; congruence.
  - unfold build_format_string. rewrite <- split_ws_nil.
    destruct (split_ws (remove_char "p" quality)); split.
    + intros [out H]. discriminate.
    + congruence.
    + discriminate.
    + intros _. eexists. reflexivity.
  - unfold build_format_string. rewrite remove_char_idemp. reflexivity.
Qed.

Lemma prompt_quality_offered default_quality answer :
  answer = None \/ (exists q, answer = Some q /\ q ∈ get_quality_choices) ->
  prompt_quality default_quality answer ∈ get_quality_choices.
Proof.
  intros H. unfold prompt_quality.
  assert (Hd : (if bool_decide (default_quality ∈ get_quality_choices)
                then default_quality else nth 3 get_quality_choices [])
               ∈ get_quality_choices).
  { case_bool_decide as Hin; [exact Hin|].
    apply list_elem_of_In. vm_compute. tauto. }
  destruct H as [->|[q [-> Hq]]]; [exact Hd|].
  destruct q; [exact Hd|exact Hq].
Qed.

Lemma offered_quality_selector :
  Forall (fun q =>
            exists h,
              settings_quality_num q = Ok h
              /\ numeral h
              /\ build_format_string (workflow_quality_num q)
                 = Ok (join "/" (format_tiers h)))
    get_quality_choices.
Proof.
  unfold get_quality_choices. cbn [map].
  repeat (apply Forall_cons; split;
          [eexists; split; [vm_compute; reflexivity|];
           split; [split; [discriminate|repeat constructor]
                  |vm_compute; reflexivity]|]).
  apply Forall_nil. exact I.
Qed.

(** X9. Whatever the quality menu is left with, an offered label or
    nothing, [prompt_quality] returns an offered label; and for the label it
    returns, the selector the download functions build is the four
    alternatives bounded by the number of the label followed by [best]: it
    cannot fail. *)
Theorem prompt_quality_selector default_quality answer :
  answer = None \/ (exists q, answer = Some q /\ q ∈ get_quality_choices) ->
  prompt_quality default_quality answer ∈ get_quality_choices
  /\ exists h,
       settings_quality_num (prompt_quality default_quality answer) = Ok h
       /\ numeral h
       /\ build_format_string
            (workflow_quality_num (prompt_quality default_quality answer))
          = Ok (join "/" (format_tiers h)).
Proof.
  intros H. pose proof (prompt_quality_offered default_quality answer H) as Hq.
  split; [exact Hq|].
  pose proof offered_quality_selector as Hall.
  rewrite Forall_forall in Hall. exact (Hall _ Hq).
Qed.

Lemma prompt_quality_selector_witness :
  prompt_quality (chars "best") None = chars "720p (HD)"
  /\ exists h,
       settings_quality_num (chars "720p (HD)") = Ok h
       /\ numeral h
       /\ build_format_string (workflow_quality_num (chars "720p (HD)"))
          = Ok (join "/" (format_tiers h)).
Proof.
  split; [vm_compute; reflexivity|].
  change (chars "720p (HD)") with (prompt_quality (chars "best") None).
  apply (prompt_quality_selector (chars "best") None). left. reflexivity.
Defined.

(** X10. The number the settings menu stores for a label brings the same
    label back as the current quality, for every label but [144p]: its
    number is a prefix of [1440p (2K)], which comes first. *)
Theorem settings_quality_round_trip :
  Forall (fun q =>
            exists n,
              settings_quality_num q = Ok n
              /\ current_quality n
                 = if bool_decide (q = chars "144p") then chars "1440p (2K)"
                   else q)
    get_quality_choices.
Proof.
  unfold get_quality_choices. cbn [map].
  repeat (apply Forall_cons; split;
          [eexists; split; vm_compute; reflexivity|]).
  apply Forall_nil. exact I.
Qed.

(** X11. What [download_workflow] stores for a label keeps the text in
    brackets, so that the labels with one are not found again and the
    current quality falls back to [720p (HD)]; the labels without brackets
    come back as from the settings menu. *)
Theorem workflow_quality_round_trip :
  Forall (fun q =>
            current_quality (workflow_quality_num q)
            = if bool_decide (q = chars "144p") then chars "1440p (2K)"
              else if contains (chars " ") q then chars "720p (HD)"
              else q)
    get_quality_choices.
Proof.
  unfold get_quality_choices. cbn [map].
  repeat (apply Forall_cons; split; [vm_compute; reflexivity|]).
  apply Forall_nil. exact I.
Qed.

End QualityProperties.

(** ** The configuration store: the three keys *)

Section StoreProperties.

Lemma key_quality_dir : chars "last_quality" <> chars "download_dir".
Proof. discriminate. Qed.

Lemma key_quality_used : chars "last_quality" <> chars "last_used_dir".
Proof. discriminate. Qed.

Lemma key_dir_used : chars "download_dir" <> chars "last_used_dir".
Proof. discriminate. Qed.

(** What a setter does to the value [_read_config] returns. *)
Lemma setter_read self key value self' :
  (config ← _read_config self;
   config ← dict_set config key value;
   Ok (_write_config self config)) = Ok self' ->
  exists fields,
    _read_config self = Ok (JObject fields)
    /\ _read_config self' = Ok (JObject (<[key := value]> fields))
    /\ base_download_dir self' = base_download_dir self.
Proof.
  intros H. destruct (_read_config self) as [[| | | | | |fields]|e];
    simpl in H; try discriminate.
  injection H as <-. exists fields. repeat split.
Qed.



(** A configuration made by [Config()] on a missing file reads as the
    defaults, and the store is not [unreadable] then. *)
Example config_init_defaults :
  let home := MkPath (chars "/home/u/Downloads/YouTube") in
  get_last_quality (Config_init Missing home) = Ok (JString (chars "720"))
  /\ get_download_dir (Config_init Missing home) = Ok home.
Proof. split; vm_compute; reflexivity. Qed.

(** X12. A setter of the store changes its own key only:
    [set_download_dir(d)] makes [get_download_dir()] return [Path(d)] and
    leaves [get_last_quality()] as it was, [set_last_quality] leaves
    [get_download_dir()] as it was, and [set_last_used_dir] leaves both. *)
Theorem config_setters_frame self self' text :
  (set_download_dir self text = Ok self' ->
   get_download_dir self' = Ok (MkPath text)
   /\ get_last_quality self' = get_last_quality self)
  /\ (set_last_quality self text = Ok self' ->
      get_download_dir self' = get_download_dir self)
  /\ (set_last_used_dir self text = Ok self' ->
      get_download_dir self' = get_download_dir self
      /\ get_last_quality self' = get_last_quality self).
Proof.
  split; [|split]; intros H;
    destruct (setter_read _ _ _ _ H) as (fields & Hr & Hr' & Hb);
    unfold get_download_dir, get_last_quality; rewrite Hr, Hr', ?Hb; simpl.
  - rewrite lookup_insert_eq.
    rewrite lookup_insert_ne by (apply not_eq_sym, key_quality_dir).
    split; reflexivity.
  - rewrite lookup_insert_ne by exact key_quality_dir. reflexivity.
  - rewrite !lookup_insert_ne
      by (apply not_eq_sym; first [exact key_dir_used|exact key_quality_used]).
    split; reflexivity.
Qed.

Lemma config_setters_frame_witness :
  let home := MkPath (chars "/home/u/Downloads/YouTube") in
  exists self',
    set_download_dir (Config_init Missing home) (chars "/data/video")
    = Ok self'
    /\ get_download_dir self' = Ok (MkPath (chars "/data/video"))
    /\ get_last_quality self' = Ok (JString (chars "720")).
Proof.
  intros home.
  destruct (set_download_dir (Config_init Missing home) (chars "/data/video"))
    as [self'|e] eqn:E; [|vm_compute in E; discriminate E].
  exists self'. split; [reflexivity|].
  destruct (proj1 (config_setters_frame _ _ _) E) as [Hd Hq].
  split; [exact Hd|]. rewrite Hq. vm_compute. reflexivity.
Defined.

(** X13. Once a setter has returned, the document holds an object: from
    then on every setter returns and [get_last_quality()] does not raise. *)
Theorem config_setters_keep_object self self' text :
  set_last_quality self text = Ok self'
  \/ set_download_dir self text = Ok self'
  \/ set_last_used_dir self text = Ok self' ->
  read_as_dict (config_file self')
  /\ (forall q, exists s, set_last_quality self' q = Ok s)
  /\ (forall d, exists s, set_download_dir self' d = Ok s)
  /\ (forall d, exists s, set_last_used_dir self' d = Ok s)
  /\ exists v, get_last_quality self' = Ok v.
Proof.
  intros H.
  assert (Hr' : exists fields, _read_config self' = Ok (JObject fields)).
  { destruct H as [H|[H|H]];
      destruct (setter_read _ _ _ _ H) as (fields & _ & Hr' & _);
      eexists; exact Hr'. }
  destruct Hr' as [fields Hr'].
  assert (Hobj : read_as_dict (config_file self')).
  { clear H. unfold _read_config in Hr'.
    destruct (config_file self') as [| | |v]; try exact I;
      [discriminate Hr'|].
    injection Hr' as ->. exact I. }
  split; [exact Hobj|].
  unfold set_last_quality, set_download_dir, set_last_used_dir,
    get_last_quality. rewrite Hr'. simpl.
  repeat split; intros; eexists; reflexivity.
Qed.

Lemma config_setters_keep_object_witness :
  let broken :=
    {| config_file := Malformed (chars "{");
       base_download_dir := MkPath (chars "/home/u/Downloads/YouTube") |} in
  exists self',
    set_last_used_dir broken (chars "/data") = Ok self'
    /\ read_as_dict (config_file self')
    /\ exists v, get_last_quality self' = Ok v.
Proof.
  intros broken.
  destruct (set_last_used_dir broken (chars "/data")) as [self'|e] eqn:E;
    [|vm_compute in E; discriminate E].
  exists self'. split; [reflexivity|].
  destruct (config_setters_keep_object broken self' (chars "/data")
              (or_intror (or_intror E))) as (Ho & _ & _ & _ & Hv).
  split; assumption.
Defined.

Variable normal : str -> str.

(** X14. After [set_last_used_dir(d)], [get_last_used_dir()] returns [d]
    unless [d] is empty or is the text of the download directory, in which
    cases it returns [None]; and what [get_last_used_dir()] returns is never
    the text of the download directory. *)
Theorem last_used_dir_round_trip self self' text dir :
  set_last_used_dir self text = Ok self' ->
  get_download_dir self = Ok dir ->
  get_last_used_dir normal self'
  = Ok (if bool_decide (text = []) || bool_decide (text = normal (Path_str dir))
        then JNull else JString text)
  /\ get_last_used_dir normal self' <> Ok (JString (normal (Path_str dir))).
Proof.
  intros H Hdir.
  destruct (setter_read _ _ _ _ H) as (fields & Hr & Hr' & Hb).
  assert (Hd' : get_download_dir self' = get_download_dir self).
  { unfold get_download_dir. rewrite Hr, Hr', Hb. simpl.
    rewrite lookup_insert_ne by (apply not_eq_sym, key_dir_used).
    reflexivity. }
  assert (Hget : get_last_used_dir normal self'
                 = Ok (if bool_decide (text = [])
                          || bool_decide (text = normal (Path_str dir))
                       then JNull else JString text)).
  { unfold get_last_used_dir. rewrite Hr'. simpl.
    rewrite lookup_insert_eq. simpl. rewrite Hd', Hdir. simpl.
    destruct text as [|c text]; [reflexivity|].
    rewrite (bool_decide_eq_false_2 (c :: text = [])) by discriminate.
    simpl. case_bool_decide; reflexivity. }
  split; [exact Hget|].
  rewrite Hget. repeat case_bool_decide; simpl; congruence.
Qed.

End StoreProperties.

Lemma last_used_dir_round_trip_witness :
  let home := MkPath (chars "/home/u/Downloads/YouTube") in
  exists self',
    set_last_used_dir (Config_init Missing home) (chars "/data/video")
    = Ok self'
    /\ get_last_used_dir (fun s => s) self'
       = Ok (JString (chars "/data/video")).
Proof.
  intros home.
  destruct (set_last_used_dir (Config_init Missing home) (chars "/data/video"))
    as [self'|e] eqn:E; [|vm_compute in E; discriminate E].
  exists self'. split; [reflexivity|].
  rewrite (proj1 (last_used_dir_round_trip (fun s => s) _ _ _ home E eq_refl)).
  vm_compute. reflexivity.
Defined.

(** ** The metadata *)

Section MetadataProperties.

Variable loads : str -> str + json.
Variable called_process_error : Z -> str.

Lemma decode_entries_spec lines es :
  decode_entries loads lines = Ok es ->
  (length es <= length lines)%nat
  /\ Forall (fun e => exists line,
                line ∈ lines /\ strip line <> [] /\ loads line = inr e) es.
Proof.
  revert es. induction lines as [|l lines IH]; simpl; intros es H.
  - injection H as <-. split; [reflexivity|constructor].
  - destruct (strip l) as [|c t] eqn:El.
    + destruct (IH es H) as [Hlen Hall]. split; [lia|].
      eapply Forall_impl; [exact Hall|].
      intros e (line & Hin & Hne & Hl). exists line.
      split; [right; exact Hin|split; assumption].
    + unfold decode in H. destruct (loads l) as [msg|v] eqn:Ev;
        simpl in H; [discriminate|].
      destruct (decode_entries loads lines) as [vs|e]; simpl in H;
        [|discriminate].
      injection H as <-. destruct (IH vs eq_refl) as [Hlen Hall].
      split; [simpl; lia|]. constructor.
      * exists l. split; [left|split; [rewrite El; discriminate|exact Ev]].
      * eapply Forall_impl; [exact Hall|].
        intros e (line & Hin & Hne & Hl). exists line.
        split; [right; exact Hin|split; assumption].
Qed.



Lemma VideoInfo_init_fields d info :
  VideoInfo_init (JObject d) = Ok info ->
  is_playlist info
  = match d !! chars "_type" with
    | Some t => eq_str t (chars "playlist")
    | None => false
    end
  /\ entries info = default (JArray []) (d !! chars "entries").
Proof. intros [= <-]. split; reflexivity. Qed.

(** X15. When yt-dlp has written two lines or more and [fetch_metadata]
    returns, what it returns is a playlist, [Downloader.is_playlist] says so,
    and its entries are values decoded from lines that are not blank: there
    are no more entries than lines. *)
Theorem fetch_metadata_playlist stdout stderr info :
  (1 < length (split_char nl (strip stdout)))%nat ->
  fetch_metadata loads called_process_error (Exited 0 stdout stderr)
  = Ok info ->
  is_playlist info = true
  /\ Downloader_is_playlist info = Ok true
  /\ exists es,
       entries info = JArray es
       /\ (length es <= length (split_char nl (strip stdout)))%nat
       /\ Forall (fun e => exists line,
                     line ∈ split_char nl (strip stdout)
                     /\ strip line <> [] /\ loads line = inr e) es.
Proof.
  intros Hlen. unfold fetch_metadata.
  change (negb (0 =? 0)) with false. cbv iota.
  destruct (split_char nl (strip stdout)) as [|first rest] eqn:El;
    [discriminate|].
  apply Nat.ltb_lt in Hlen. rewrite Hlen.
  destruct (decode loads first) as [first_data|e];
    cbn [mbind result_bind]; [|discriminate].
  destruct first_data as [| | | | | |d]; cbn [dict_get mbind result_bind];
    try discriminate.
  destruct (eq_str (default JNull (d !! chars "_type")) (chars "playlist"))
    eqn:Et.
  - destruct (decode_entries loads rest) as [es|e] eqn:Ees;
      cbn [mbind result_bind dict_set]; [|discriminate].
    intros Hinit. destruct (VideoInfo_init_fields _ _ Hinit) as [Hp He].
    rewrite lookup_insert_ne in Hp by discriminate.
    rewrite lookup_insert_eq in He.
    assert (Hpl : is_playlist info = true).
    { rewrite Hp. destruct (d !! chars "_type"); [exact Et|discriminate Et]. }
    unfold Downloader_is_playlist. rewrite Hpl.
    split; [reflexivity|split; [reflexivity|]].
    exists es. split; [exact He|].
    destruct (decode_entries_spec _ _ Ees) as [Hl Hall].
    split; [simpl; lia|].
    eapply Forall_impl; [exact Hall|].
    intros e (line & Hin & Hne & Hv). exists line.
    split; [right; exact Hin|split; assumption].
  - destruct (decode_entries loads (first :: rest)) as [es|e] eqn:Ees;
      cbn [mbind result_bind]; [|discriminate].
    intros Hinit. destruct (VideoInfo_init_fields _ _ Hinit) as [Hp He].
    rewrite lookup_insert_eq in Hp.
    rewrite !(lookup_insert_ne _ _ (chars "entries")) in He by discriminate.
    rewrite lookup_insert_eq in He.
    assert (Hpl : is_playlist info = true) by (rewrite Hp; reflexivity).
    unfold Downloader_is_playlist. rewrite Hpl.
    split; [reflexivity|split; [reflexivity|]].
    exists es. split; [exact He|].
    exact (decode_entries_spec _ _ Ees).
Qed.


End MetadataProperties.

Lemma fetch_metadata_playlist_witness :
  let loads := loads_table [(sample_line, sample_video)] in
  let stdout := sample_line ++ nl :: nl :: sample_line ++ [nl] in
  exists info,
    fetch_metadata loads (fun _ => []) (Exited 0 stdout []) = Ok info
    /\ is_playlist info = true
    /\ entries info = JArray [sample_video; sample_video].
Proof.
  intros loads stdout.
  destruct (fetch_metadata loads (fun _ => []) (Exited 0 stdout []))
    as [info|e] eqn:E; [|vm_compute in E; discriminate E].
  exists info. split; [reflexivity|].
  destruct (fetch_metadata_playlist loads (fun _ => []) stdout [] info)
    as (Hp & _).
  - vm_compute. lia.
  - exact E.
  - split; [exact Hp|]. vm_compute in E. injection E as <-. reflexivity.
Defined.


(** Without [yt-dlp] on the path, [fetch_metadata] raises the
    [FileNotFoundError] of [subprocess.run], which is no [RuntimeError]. *)
Example fetch_metadata_not_started :
  fetch_metadata (loads_table []) (fun _ => []) (Failed FileNotFoundError)
  = Raise FileNotFoundError.
Proof. reflexivity. Qed.

(** ** The selection prompt *)

Section PromptProperties.

Variable total_videos : Z.

Lemma range_shape :
  StronglySorted Z.lt (range 1 (total_videos + 1))
  /\ Forall (fun i => 1 <= i <= total_videos) (range 1 (total_videos + 1)).
Proof.
  unfold range. split; [apply seqZ_sorted|].
  apply Forall_forall. intros i Hi. apply elem_of_seqZ in Hi. lia.
Qed.

Lemma ask_selection_shape answers r :
  ask_selection total_videos answers = Some r ->
  StronglySorted Z.lt r /\ Forall (fun i => 1 <= i <= total_videos) r.
Proof.
  induction answers as [|a answers IH]; simpl; [discriminate|].
  destruct a as [[|c s]|]; try (intros [= <-]; split; constructor).
  destruct (parse_video_selection (strip (c :: s)) total_videos)
    as [indices|e] eqn:E; [|exact IH].
  intros [= <-]. exact (parse_result_shape _ _ _ E).
Qed.

(** X17. Whatever is answered to [prompt_video_selection], the list it
    returns is strictly ascending and within [1, total_videos]; and when it
    is not empty, the [--playlist-items] argument [download_playlist]
    builds from it reads back as the same list. *)
Theorem prompt_video_selection_shape choice answers r :
  prompt_video_selection total_videos choice answers = Some r ->
  StronglySorted Z.lt r
  /\ Forall (fun i => 1 <= i <= total_videos) r
  /\ (r <> [] ->
      parse_video_selection (playlist_items r) total_videos = Ok r).
Proof.
  intros H.
  assert (Hshape : StronglySorted Z.lt r
                   /\ Forall (fun i => 1 <= i <= total_videos) r).
  { unfold prompt_video_selection in H.
    destruct choice as [[|c s]|];
      try (injection H as <-; exact range_shape).
    destruct (contains (chars "All videos") (c :: s));
      [injection H as <-; exact range_shape|].
    exact (ask_selection_shape _ _ H). }
  destruct Hshape as [Hs Hb]. split; [exact Hs|split; [exact Hb|]].
  intros Hne. apply parse_playlist_items; assumption.
Qed.

End PromptProperties.

Lemma prompt_video_selection_shape_witness :
  prompt_video_selection 9 (Some (chars "Select specific videos"))
    [Some (chars "0-3"); Some (chars " 5, 2-3 ")]
  = Some [2; 3; 5]
  /\ parse_video_selection (playlist_items [2; 3; 5]) 9 = Ok [2; 3; 5].
Proof.
  assert (H : prompt_video_selection 9 (Some (chars "Select specific videos"))
                [Some (chars "0-3"); Some (chars " 5, 2-3 ")]
              = Some [2; 3; 5]) by (vm_compute; reflexivity).
  split; [exact H|].
  apply (prompt_video_selection_shape 9 _ _ _ H). discriminate.
Defined.

(** ** The scanners over a whole run *)

Section RunProperties.

Variable markup_error : str -> option str.
Variable F : Type.
Variable float : str -> option F.
Variable path_name : str -> str.

Lemma playlist_step_keeps st line st' :
  (length (description st) <= 40)%nat -> current_file st = description st ->
  playlist_step F float path_name st line = Ok st' ->
  (length (description st') <= 40)%nat /\ current_file st' = description st'.
Proof.
  intros Hlen Hcur. unfold playlist_step.
  destruct (contains (chars "[download] Destination:") line).
  - destruct (split_str (chars "Destination:") line !! 1%nat) as [piece|];
      [|discriminate].
    intros [= <-]. cbn [description current_file]. split; [|reflexivity].
    destruct (40 <? length (path_name (strip piece)))%nat eqn:E.
    + rewrite length_app, length_take. cbn [length]. lia.
    + apply Nat.ltb_ge in E. exact E.
  - destruct (_ && _).
    + destruct (percent_of F float line); intros [= <-]; auto.
    + destruct (_ || _); intros [= <-]; auto.
Qed.

(** X18. The loop of [download_playlist] is left by an exception only when
    the reading of the pipe raises its [UnicodeDecodeError]: the statements
    of its body raise on no line.  After the lines read, the name the
    progress task is given has 40 characters at most and is the name held
    as the current file. *)
Theorem playlist_scan_lines_invariant stdout :
  exists st,
    playlist_scan_lines F float path_name (playlist_start F) (decoded stdout)
    = Ok st
    /\ (length (description st) <= 40)%nat
    /\ current_file st = description st
    /\ playlist_run float path_name stdout
       = match broken stdout with
         | Some message => Raise (UnicodeDecodeError message)
         | None => Ok st
         end.
Proof.
  assert (H : forall lines st,
             (length (description st) <= 40)%nat ->
             current_file st = description st ->
             exists st',
               playlist_scan_lines F float path_name st lines = Ok st'
               /\ (length (description st') <= 40)%nat
               /\ current_file st' = description st').
  { induction lines as [|l lines' IH]; intros st Hlen Hcur; simpl.
    - exists st. split; [reflexivity|split; assumption].
    - destruct (playlist_step_total F float path_name st l) as [st1 Hs].
      rewrite Hs. simpl.
      destruct (playlist_step_keeps _ _ _ Hlen Hcur Hs) as [Hl1 Hc1].
      exact (IH st1 Hl1 Hc1). }
  destruct (H (decoded stdout) (playlist_start F)) as (st & Hrun & Hl & Hc).
  - change (description (playlist_start F)) with (chars "Downloading...").
    simpl. lia.
  - reflexivity.
  - exists st. split; [exact Hrun|]. split; [exact Hl|]. split; [exact Hc|].
    unfold playlist_run. rewrite Hrun. reflexivity.
Qed.

Lemma last_n_sublist {A} n (l : list A) : last_n n l `sublist_of` l.
Proof. apply sublist_drop. Qed.

Lemma last_n_length {A} n (l : list A) : (length (last_n n l) <= n)%nat.
Proof. unfold last_n. rewrite length_drop. lia. Qed.

Lemma last_n_nil {A} n (l : list A) :
  n <> 0%nat -> last_n n l = [] -> l = [].
Proof.
  unfold last_n. intros Hn H. apply drop_nil_inv in H.
  destruct l; [reflexivity|simpl in H; lia].
Qed.

Lemma error_lines_shape lines :
  error_lines lines `sublist_of` lines
  /\ ((exists l, l ∈ lines /\ mentions_error l) ->
      Forall mentions_error (error_lines lines))
  /\ (error_lines lines = [] -> lines = []).
Proof.
  unfold error_lines.
  fold mentions_error.
  pose proof (sublist_filter mentions_error lines) as Hsub.
  assert (Hall : Forall mentions_error (filter mentions_error lines)).
  { apply Forall_forall. intros l Hl. apply list_elem_of_filter in Hl.
    exact (proj1 Hl). }
  change (fun l : str => contains (chars "ERROR") (upper l) = true
                         ∨ contains (chars "error") l = true)
    with mentions_error.
  destruct (filter mentions_error lines) as [|m ms] eqn:E.
  - split; [apply last_n_sublist|split].
    + intros [l [Hl Hm]].
      assert (Hin : l ∈ filter mentions_error lines)
        by (apply list_elem_of_filter; split; assumption).
      rewrite E in Hin. apply elem_of_nil in Hin. destruct Hin.
    + apply last_n_nil. discriminate.
  - split; [exact Hsub|split; [intros _; exact Hall|discriminate]].
Qed.

(** Printing raises nothing but the [MarkupError] of rich. *)
Lemma print_raises text printed printed' e :
  print markup_error text printed = (printed', Raise e) ->
  exists message, e = MarkupError message.
Proof.
  unfold print. destruct (markup_error text) as [message|];
    [|discriminate].
  intros [= _ <-]. exists message. reflexivity.
Qed.

Lemma for_each_print_raises {A} (text : A -> str) xs printed printed' e :
  for_each (fun x => print markup_error (text x)) xs printed
  = (printed', Raise e) ->
  exists message, e = MarkupError message.
Proof.
  revert printed. induction xs as [|x xs IH]; intros printed;
    cbn [for_each]; [discriminate|].
  unfold mbind, io_bind.
  destruct (print markup_error (text x) printed) as [printed1 [[]|e1]] eqn:E1.
  - apply IH.
  - intros [= _ <-]. exact (print_raises _ _ _ _ E1).
Qed.

(** With an exit status that is not 0, the [try] of
    [download_single_video] is left by an exception: its own
    [RuntimeError], or the [MarkupError] of a text it prints. *)
Lemma download_single_video_end_raises all_output returncode printed :
  returncode <> 0 ->
  exists printed' e,
    download_single_video_end markup_error all_output returncode printed
    = (printed', Raise e)
    /\ (e = RuntimeError (chars "Download failed with code "
                          ++ str_of_int returncode)
        \/ exists message, e = MarkupError message).
Proof.
  intros Hrc. unfold download_single_video_end.
  destruct (returncode =? 0) eqn:E; [apply Z.eqb_eq in E; contradiction|].
  unfold mbind, io_bind, raise.
  destruct (print markup_error _ printed) as [printed1 [[]|e1]] eqn:E1.
  - destruct (for_each _ _ printed1) as [printed2 [[]|e2]] eqn:E2.
    + eexists _, _. split; [reflexivity|left; reflexivity].
    + eexists _, _. split; [reflexivity|right].
      exact (for_each_print_raises _ _ _ _ _ E2).
  - eexists _, _. split; [reflexivity|right].
    exact (print_raises _ _ _ _ E1).
Qed.

(** The [try] of [download_playlist] is left by the [UnicodeDecodeError] of
    its pipe or by the [MarkupError] of the text it prints, and by no other
    exception. *)
Lemma download_playlist_try_raises stdout returncode printed printed' e :
  match playlist_run float path_name stdout with
  | Ok _ => download_playlist_end markup_error returncode
  | Raise e => raise e
  end printed = (printed', Raise e) ->
  broken stdout = Some (str_of_exn e) /\ e = UnicodeDecodeError (str_of_exn e)
  \/ exists message, e = MarkupError message.
Proof.
  unfold playlist_run.
  destruct (playlist_scan_lines_total F float path_name (playlist_start F)
              (decoded stdout)) as [st ->].
  cbn [mbind result_bind].
  destruct (broken stdout) as [message|].
  - unfold raise. intros [= _ <-]. left. split; reflexivity.
  - unfold download_playlist_end.
    destruct (returncode =? 0); [discriminate|].
    unfold mbind, io_bind.
    destruct (print markup_error _ printed) as [printed1 [[]|e1]] eqn:E1;
      [discriminate|].
    intros [= _ <-]. right. exact (print_raises _ _ _ _ E1).
Qed.

(** What the [except Exception] of a download call comes to. *)
Lemma handler_returns text printed :
  returned (let '(printed', value) :=
              (print markup_error text;; mret false) printed in
            {| returned := value; console := printed' |}) = Ok false
  \/ exists message,
       returned (let '(printed', value) :=
                   (print markup_error text;; mret false) printed in
                 {| returned := value; console := printed' |})
       = Raise (MarkupError message).
Proof.
  unfold mbind, io_bind, print.
  destruct (markup_error text) as [message|]; [right|left].
  - exists message. reflexivity.
  - reflexivity.
Qed.

(** X19. When the exit status is not 0, [download_single_video] chooses
    five lines of yt-dlp at most to show: they are lines of the output, in
    their order; they all hold the word [error] when a line of the output
    does; and there is one at least when yt-dlp has written anything.  When
    rich accepts what is printed, the call prints its heading, these lines,
    stripped, and the failure, and returns [False].  In any case it returns
    [False] or raises the [MarkupError] of rich. *)
Theorem download_single_video_diagnostics lines returncode :
  returncode <> 0 ->
  exists shown,
    (length shown <= 5)%nat
    /\ shown `sublist_of` lines
    /\ ((exists l, l ∈ lines /\ mentions_error l) ->
        Forall mentions_error shown)
    /\ (shown = [] -> lines = [])
    /\ (let texts :=
          [nl :: chars "[bold red]yt-dlp error:[/bold red]"]
          ++ map (fun line => chars "[red]" ++ strip line ++ chars "[/red]")
               shown
          ++ [chars "[bold red]Error: Download failed with code "
              ++ str_of_int returncode ++ chars "[/bold red]"] in
        Forall (fun text => markup_error text = None) texts ->
        download_single_video markup_error float lines returncode
        = {| returned := Ok false; console := texts |})
    /\ (returned (download_single_video markup_error float lines returncode)
        = Ok false
        \/ exists message,
             returned
               (download_single_video markup_error float lines returncode)
             = Raise (MarkupError message)).
Proof.
  intros Hrc. exists (last_n 5 (error_lines lines)).
  destruct (error_lines_shape lines) as (Hsub & Hall & Hnil).
  split; [|split; [|split; [|split; [|split]]]].
  - apply last_n_length.
  - transitivity (error_lines lines); [apply last_n_sublist|exact Hsub].
  - intros H. specialize (Hall H).
    apply Forall_forall. intros l Hl.
    rewrite Forall_forall in Hall. apply Hall.
    exact (elem_of_sublist _ _ _ Hl (last_n_sublist 5 (error_lines lines))).
  - intros H. apply Hnil. apply (last_n_nil 5); [discriminate|exact H].
  - intros texts Htexts. unfold texts in Htexts.
    apply Forall_app in Htexts as [Hhead Htexts].
    apply Forall_app in Htexts as [Hshown Hfail].
    apply (download_single_video_failure markup_error F float lines
             returncode Hrc).
    + exact (Forall_inv Hhead).
    + exact Hshown.
    + exact (Forall_inv Hfail).
  - unfold download_single_video, run, try_except.
    destruct (download_single_video_end_raises
                (all_output (single_scan_lines F float lines)) returncode []
                Hrc) as (printed & e & -> & _).
    apply handler_returns.
Qed.

End RunProperties.

Lemma download_single_video_diagnostics_witness :
  exists shown,
    download_single_video markup_closed float_decimal
      [chars "[youtube] Extracting URL"; chars "ERROR: gone"] 1
    = {| returned := Ok false;
         console :=
           [nl :: chars "[bold red]yt-dlp error:[/bold red]"]
           ++ map (fun line => chars "[red]" ++ strip line ++ chars "[/red]")
                shown
           ++ [chars "[bold red]Error: Download failed with code 1[/bold red]"] |}
    /\ Forall mentions_error shown.
Proof.
  destruct (download_single_video_diagnostics markup_closed Q float_decimal
              [chars "[youtube] Extracting URL"; chars "ERROR: gone"] 1)
    as (shown & _ & _ & Hall & _ & Hc & _); [discriminate|].
  exists shown. split.
  - apply Hc. apply Forall_forall. intros text _. reflexivity.
  - apply Hall. exists (chars "ERROR: gone").
    split; [right; left|left; vm_compute; reflexivity].
Defined.

(** ** The errors of the selection parser *)

Section SelectionErrors.

Lemma int_raises s e : int s = Raise e -> e = InvalidLiteral s.
Proof.
  unfold int.
  destruct (match rstrip_int (lstrip_int s) with
            | [] => None
            | c :: r =>
                if Ascii.eqb c "+" then int_unsigned r
                else if Ascii.eqb c "-" then option_map Z.opp (int_unsigned r)
                else int_unsigned (rstrip_int (lstrip_int s))
            end); [discriminate|].
  intros [= <-]. reflexivity.
Qed.

Lemma reraise_raises {A} (r : result A) h e :
  reraise r h = Raise e -> exists e0, r = Raise e0 /\ e = h e0.
Proof.
  destruct r as [a|e0]; simpl; [discriminate|].
  intros [= <-]. exists e0. split; reflexivity.
Qed.

(** What a term raises: the error of its kind, whose cause is a
    [ValueError] too. *)
Lemma term_raises total_videos X part e :
  term total_videos X part = Raise e ->
  exists cause,
    e = ValueErrorFrom
          ((if contains (chars "-") (strip part)
            then chars "Invalid range format: "
            else chars "Invalid number: ") ++ strip part) cause
    /\ value_error cause.
Proof.
  unfold term. destruct (contains (chars "-") (strip part)).
  - unfold range_term. intros H.
    apply reraise_raises in H as (cause & Hin & ->).
    exists cause. split; [reflexivity|].
    destruct (split_char "-" (strip part)) as [|a [|b [|c r]]];
      try (injection Hin as <-; exact I).
    destruct (int (strip a)) as [i|ea] eqn:Ea; cbn [mbind result_bind] in Hin.
    + destruct (int (strip b)) as [j|eb] eqn:Eb;
        cbn [mbind result_bind] in Hin.
      * destruct (_ || _); [injection Hin as <-; exact I|discriminate].
      * injection Hin as <-. rewrite (int_raises _ _ Eb). exact I.
    + injection Hin as <-. rewrite (int_raises _ _ Ea). exact I.
  - unfold single_term. intros H.
    apply reraise_raises in H as (cause & Hin & ->).
    exists cause. split; [reflexivity|].
    destruct (int (strip part)) as [i|ea] eqn:Ea;
      cbn [mbind result_bind] in Hin.
    + destruct (_ || _); [injection Hin as <-; exact I|discriminate].
    + injection Hin as <-. rewrite (int_raises _ _ Ea). exact I.
Qed.

Lemma for_parts_raises total_videos X parts e :
  for_parts total_videos X parts = Raise e ->
  exists part X', part ∈ parts /\ term total_videos X' part = Raise e.
Proof.
  revert X. induction parts as [|p parts IH]; simpl; intros X H;
    [discriminate|].
  destruct (term total_videos X p) as [X1|e1] eqn:E;
    cbn [mbind result_bind] in H.
  - destruct (IH _ H) as (part & X' & Hin & Ht).
    exists part, X'. split; [right; exact Hin|exact Ht].
  - injection H as <-. exists p, X. split; [left|exact E].
Qed.

(** X20. Whatever the parser raises is a [ValueError], the exception the
    selection prompt catches: it names a term of the selection, stripped,
    as an invalid range when the term holds a hyphen and as an invalid
    number when it does not, and its cause is a [ValueError] as well. *)
Theorem parse_video_selection_raises selection total_videos e :
  parse_video_selection selection total_videos = Raise e ->
  exists part cause,
    part ∈ split_char "," (lower (strip selection))
    /\ e = ValueErrorFrom
             ((if contains (chars "-") (strip part)
               then chars "Invalid range format: "
               else chars "Invalid number: ") ++ strip part) cause
    /\ value_error cause /\ value_error e.
Proof.
  unfold parse_video_selection. case_bool_decide; [discriminate|].
  destruct (for_parts _ _ _) as [Y|e'] eqn:E; cbn [mbind result_bind];
    [discriminate|].
  intros [= <-].
  destruct (for_parts_raises _ _ _ _ E) as (part & X' & Hin & Ht).
  destruct (term_raises _ _ _ _ Ht) as (cause & -> & Hc).
  exists part, cause. repeat split; assumption.
Qed.

Lemma parse_video_selection_raises_witness :
  exists part cause,
    part ∈ split_char "," (chars "2, 1-2-3")
    /\ parse_video_selection (chars "2, 1-2-3") 5
       = Raise (ValueErrorFrom
                  ((if contains (chars "-") (strip part)
                    then chars "Invalid range format: "
                    else chars "Invalid number: ") ++ strip part) cause)
    /\ value_error cause.
Proof.
  destruct (parse_video_selection (chars "2, 1-2-3") 5) as [r|e] eqn:E;
    [vm_compute in E; discriminate E|].
  destruct (parse_video_selection_raises _ _ _ E)
    as (part & cause & Hin & -> & Hc & _).
  exists part, cause. split; [exact Hin|split; [reflexivity|exact Hc]].
Defined.

End SelectionErrors.

(** ** What the progress bar shows after a run *)

Section Readings.

Variable F : Type.
Variable float : str -> option F.
Variable path_name : str -> str.

Lemma single_step_completed st line :
  single_completed (single_step F float st line)
  = default (single_completed st) (single_reading float line).
Proof.
  unfold single_step, single_reading.
  destruct (_ && _); [destruct (percent_of F float line)|]; reflexivity.
Qed.

Lemma playlist_step_completed st line st' :
  playlist_step F float path_name st line = Ok st' ->
  completed st' = default (completed st) (playlist_reading float line).
Proof.
  unfold playlist_step, playlist_reading, single_reading.
  destruct (contains (chars "[download] Destination:") line).
  - destruct (split_str (chars "Destination:") line !! 1%nat);
      [|discriminate].
    intros [= <-]. reflexivity.
  - destruct (_ && _).
    + destruct (percent_of F float line); intros [= <-]; reflexivity.
    + destruct (_ || _); intros [= <-]; reflexivity.
Qed.

Lemma last_reading {A} (c : A) (v : option A) (m : list A) :
  default (default c v) (last m)
  = default c (last (match v with Some x => x :: m | None => m end)).
Proof.
  destruct v as [x|]; [|reflexivity]. simpl.
  destruct m as [|y m]; [reflexivity|].
  change (last (x :: y :: m)) with (last (y :: m)).
  destruct (last (y :: m)) eqn:E; [reflexivity|].
  apply last_None in E. discriminate.
Qed.

(** X21. After the lines of a run, the progress bar of
    [download_single_video] shows the percentage read from the last line
    that gave one, and 0 when no line did. *)
Theorem single_scan_lines_completed lines :
  single_completed (single_scan_lines F float lines)
  = default (Int 0) (last (omap (single_reading float) lines)).
Proof.
  unfold single_scan_lines.
  induction lines as [|l lines IH] using rev_ind; [reflexivity|].
  rewrite fold_left_app. cbn [fold_left].
  rewrite single_step_completed, IH, omap_app.
  cbn [omap list_omap].
  destruct (single_reading float l) as [v|].
  - rewrite last_snoc. reflexivity.
  - rewrite app_nil_r. reflexivity.
Qed.

(** X22. After the lines read from its pipe, the progress bar of
    [download_playlist] shows what the last line that gave a value gave: 0
    for a destination line, the percentage read from a progress line, 100
    for a line of completion; and 0 when no line gave a value.  The loop
    ends with that value when the pipe is read to its end; bytes that are
    not UTF-8 end it with a [UnicodeDecodeError] instead. *)
Theorem playlist_scan_lines_completed stdout :
  exists st,
    playlist_scan_lines F float path_name (playlist_start F) (decoded stdout)
    = Ok st
    /\ completed st
       = default (Int 0)
           (last (omap (playlist_reading float) (decoded stdout)))
    /\ playlist_run float path_name stdout
       = match broken stdout with
         | Some message => Raise (UnicodeDecodeError message)
         | None => Ok st
         end.
Proof.
  assert (H : forall lines st0,
             exists st,
               playlist_scan_lines F float path_name st0 lines = Ok st
               /\ completed st
                  = default (completed st0)
                      (last (omap (playlist_reading float) lines))).
  { induction lines as [|l lines' IH]; intros st0.
    - exists st0. split; reflexivity.
    - destruct (playlist_step_total F float path_name st0 l) as [st1 Hs].
      destruct (IH st1) as (st & Hrun & Hc).
      exists st. split.
      + cbn [playlist_scan_lines]. rewrite Hs. exact Hrun.
      + rewrite Hc, (playlist_step_completed _ _ _ Hs).
        cbn [omap list_omap]. apply last_reading. }
  destruct (H (decoded stdout) (playlist_start F)) as (st & Hrun & Hc).
  exists st. split; [exact Hrun|]. split; [exact Hc|].
  unfold playlist_run. rewrite Hrun. reflexivity.
Qed.

End Readings.
